(** * Live interview session: transcript reconciliation, playback
      scheduling and session teardown

    A shallow embedding of the [App] component (App.tsx, the revision with
    the transcript archive) and of the types it uses (types.ts).

    The component keeps its data in React state cells and in mutable refs;
    both become fields of one [State] record and every callback becomes a
    function from states to states.  Three conventions are used throughout.

    - A React callback reads the state cells through the closure of the
      render that created it, not through the live cell.  The values a
      callback closes over are the fields of a [Closure]; [render] builds
      the closure of an up-to-date render.
    - Readings of the outside world taken while a callback runs
      ([Date.now()], [AudioContext.currentTime], the outcome of the decoder)
      are the fields of a [Reading].  [decode], [decodeAudioData] and
      [createBlob] come from utils/audioUtils and are not embedded: whether
      the decoder returns a buffer or throws, and the duration of the buffer,
      are inputs; a blob is named by the samples it was made from; the
      [await] on the decoder is taken to resume before the next event is
      dispatched.
    - Calls made on browser objects and on [localStorage] are appended to
      the [effects] trace; calls made on a live session are recorded in the
      cell of the promise that yields the session.  Status strings are kept,
      console output and the wiring of audio nodes ([connect]) are not.

    [handleMessage] catches nothing: an exception raised in its audio block
    leaves the handler with the state reached so far, and the blocks after
    it are not run.

    JavaScript numbers that measure time on the output clock are binary64
    floating-point numbers, with their own addition and comparisons. *)

From Stdlib Require Import List String Bool ZArith NArith Lia Floats.
From Stdlib Require Import DecimalString.
Import ListNotations.
Local Open Scope float_scope.
Local Open Scope string_scope.
Local Open Scope list_scope.

(** ** types.ts *)

Inductive Speaker := USER | MODEL | SYSTEM.

Definition Speaker_eqb (a b : Speaker) : bool :=
  match a, b with
  | USER, USER | MODEL, MODEL | SYSTEM, SYSTEM => true
  | _, _ => false
  end.

Record ChatMessage := mkMsg {
  id : string;
  speaker : Speaker;
  text : string;
  isPartial : bool   (* optional in the source; absent reads as false *)
}.

Record SavedTranscriptSession := mkSaved {
  saved_id : string;
  timestamp : N;
  saved_messages : list ChatMessage
}.

(** ** Inbound messages (the fields of [LiveServerMessage] the handler reads)

    An absent [text] is read as the empty string: the handler only tests the
    text for truthiness and stores it, and both are falsy; so is an absent
    [data].  [parts] is optional in the type of the SDK: [None] is a model
    turn without the field.  [turnComplete] and [interrupted] are [false]
    when absent. *)

Record Transcription := { transcription_text : string }.
Record InlineData := { data : string }.
Record Part := { inlineData : option InlineData }.
Record Content := { parts : option (list Part) }.

Record ServerContent := {
  inputTranscription : option Transcription;
  outputTranscription : option Transcription;
  modelTurn : option Content;
  turnComplete : bool;
  interrupted : bool
}.

Record LiveServerMessage := { serverContent : option ServerContent }.

(** ** JavaScript values *)

(** Truthiness of a string: every string but the empty one. *)
Definition truthy (s : string) : bool :=
  match s with EmptyString => false | String _ _ => true end.

(** [`${n}`] for a non-negative integer. *)
Definition decimal (n : N) : string := NilEmpty.string_of_uint (N.to_uint n).

(** [Math.max] of two numbers: [NaN] if one of them is, the larger one
    otherwise, [+0] counting as larger than [-0]. *)
Definition Math_max (a b : float) : float :=
  if is_nan a || is_nan b then nan
  else if (a <? b)%float then b
  else if is_zero a && is_zero b && get_sign a then b
  else a.

(** The outcome of comparing two numbers in the specification of the
    format, when the first one is not above the second; [None] is the outcome
    of a comparison with [NaN]. *)
Definition notGt (c : option comparison) : bool :=
  match c with Some Lt | Some Eq => true | _ => false end.

(** [Array.prototype.findIndex]; [None] stands for -1. *)
Fixpoint findIndex {A : Type} (p : A -> bool) (l : list A) : option nat :=
  match l with
  | [] => None
  | x :: l' => if p x then Some 0%nat else option_map S (findIndex p l')
  end.

(** [copy[i] = v] on a copy of [l], for an index inside the array. *)
Fixpoint assign {A : Type} (l : list A) (i : nat) (v : A) : list A :=
  match l, i with
  | [], _ => []
  | _ :: l', O => v :: l'
  | x :: l', S i' => x :: assign l' i' v
  end.

(** ** The session promise

    [ai.live.connect] returns a promise of the session.  The component only
    ever calls [then] on it, with one of two callbacks. *)

Inductive Blob := createBlob (inputData : list Z).

Inductive Reaction :=
| ThenSend (media : Blob)      (* session => session.sendRealtimeInput({ media }) *)
| ThenClose.                   (* session => session.close() *)

Inductive SessionCall :=
| sendRealtimeInput (media : Blob)
| close.

Inductive Settlement := Pending | Fulfilled | Rejected.

Record Promise := mkPromise {
  settlement : Settlement;
  reactions : list Reaction;     (* callbacks waiting for fulfilment, oldest first *)
  calls : list SessionCall       (* calls made so far on the promised session *)
}.

Definition react (r : Reaction) : SessionCall :=
  match r with
  | ThenSend media => sendRealtimeInput media
  | ThenClose => close
  end.

(** [promise.then(r)]: run at once on a fulfilled promise, wait on a pending
    one, never run on a rejected one. *)
Definition then_ (r : Reaction) (p : Promise) : Promise :=
  match settlement p with
  | Pending => mkPromise Pending (reactions p ++ [r]) (calls p)
  | Fulfilled => mkPromise Fulfilled (reactions p) (calls p ++ [react r])
  | Rejected => p
  end.

(** Fulfilment of a pending promise runs the waiting callbacks in order. *)
Definition fulfil (p : Promise) : Promise :=
  match settlement p with
  | Pending => mkPromise Fulfilled [] (calls p ++ map react (reactions p))
  | _ => p
  end.

Definition reject (p : Promise) : Promise :=
  match settlement p with
  | Pending => mkPromise Rejected [] (calls p)
  | _ => p
  end.

(** ** Calls on browser objects and on the storage item *)

Inductive Effect :=
| TrackStop (stream : nat)                    (* every track of the stream is stopped *)
| NodeDisconnect (node : nat)
| ContextClose (ctx : nat)
| SourceStart (source : nat) (when duration : float)
| SourceStop (source : nat)
| StorageSet (value : list SavedTranscriptSession)   (* localStorage.setItem *)
| StorageRemove.                                     (* localStorage.removeItem *)

(** ** Component state *)

Record State := mkState {
  isRecording : bool;
  isLoading : bool;
  messages : list ChatMessage;
  statusMessage : string;
  savedTranscripts : list SavedTranscriptSession;
  showPastTranscripts : bool;
  selectedPastTranscript : option SavedTranscriptSession;
  liveSessionRef : option nat;
  streamRef : option nat;
  inputAudioContextRef : option nat;
  outputAudioContextRef : option nat;
  scriptProcessorRef : option nat;
  outputAudioSourcesRef : list nat;
  nextStartTimeRef : float;
  currentInputTranscriptionRef : string;
  currentOutputTranscriptionRef : string;
  lastUserMessageIdRef : string;
  lastModelMessageIdRef : string;
  promises : list Promise;
  effects : list Effect;
  nextObject : nat
}.

(** Assignments to one cell.  Each is a single case analysis on the state,
    so that an assignment to a state that is still under a test stays one
    node until the test is decided. *)

Definition set_isRecording (v : bool) (st : State) : State :=
  match st with
  | mkState _ f1 f2 f3 f4 f5 f6 f7 f8 f9 f10 f11 f12 f13 f14 f15 f16 f17 f18 f19 f20 =>
      mkState v f1 f2 f3 f4 f5 f6 f7 f8 f9 f10 f11 f12 f13 f14 f15 f16 f17 f18 f19 f20
  end.

Definition set_isLoading (v : bool) (st : State) : State :=
  match st with
  | mkState f0 _ f2 f3 f4 f5 f6 f7 f8 f9 f10 f11 f12 f13 f14 f15 f16 f17 f18 f19 f20 =>
      mkState f0 v f2 f3 f4 f5 f6 f7 f8 f9 f10 f11 f12 f13 f14 f15 f16 f17 f18 f19 f20
  end.

Definition set_messages (v : list ChatMessage) (st : State) : State :=
  match st with
  | mkState f0 f1 _ f3 f4 f5 f6 f7 f8 f9 f10 f11 f12 f13 f14 f15 f16 f17 f18 f19 f20 =>
      mkState f0 f1 v f3 f4 f5 f6 f7 f8 f9 f10 f11 f12 f13 f14 f15 f16 f17 f18 f19 f20
  end.

Definition set_statusMessage (v : string) (st : State) : State :=
  match st with
  | mkState f0 f1 f2 _ f4 f5 f6 f7 f8 f9 f10 f11 f12 f13 f14 f15 f16 f17 f18 f19 f20 =>
      mkState f0 f1 f2 v f4 f5 f6 f7 f8 f9 f10 f11 f12 f13 f14 f15 f16 f17 f18 f19 f20
  end.

Definition set_savedTranscripts (v : list SavedTranscriptSession) (st : State) : State :=
  match st with
  | mkState f0 f1 f2 f3 _ f5 f6 f7 f8 f9 f10 f11 f12 f13 f14 f15 f16 f17 f18 f19 f20 =>
      mkState f0 f1 f2 f3 v f5 f6 f7 f8 f9 f10 f11 f12 f13 f14 f15 f16 f17 f18 f19 f20
  end.

Definition set_showPastTranscripts (v : bool) (st : State) : State :=
  match st with
  | mkState f0 f1 f2 f3 f4 _ f6 f7 f8 f9 f10 f11 f12 f13 f14 f15 f16 f17 f18 f19 f20 =>
      mkState f0 f1 f2 f3 f4 v f6 f7 f8 f9 f10 f11 f12 f13 f14 f15 f16 f17 f18 f19 f20
  end.

Definition set_selectedPastTranscript (v : option SavedTranscriptSession) (st : State) : State :=
  match st with
  | mkState f0 f1 f2 f3 f4 f5 _ f7 f8 f9 f10 f11 f12 f13 f14 f15 f16 f17 f18 f19 f20 =>
      mkState f0 f1 f2 f3 f4 f5 v f7 f8 f9 f10 f11 f12 f13 f14 f15 f16 f17 f18 f19 f20
  end.

Definition set_liveSessionRef (v : option nat) (st : State) : State :=
  match st with
  | mkState f0 f1 f2 f3 f4 f5 f6 _ f8 f9 f10 f11 f12 f13 f14 f15 f16 f17 f18 f19 f20 =>
      mkState f0 f1 f2 f3 f4 f5 f6 v f8 f9 f10 f11 f12 f13 f14 f15 f16 f17 f18 f19 f20
  end.

Definition set_streamRef (v : option nat) (st : State) : State :=
  match st with
  | mkState f0 f1 f2 f3 f4 f5 f6 f7 _ f9 f10 f11 f12 f13 f14 f15 f16 f17 f18 f19 f20 =>
      mkState f0 f1 f2 f3 f4 f5 f6 f7 v f9 f10 f11 f12 f13 f14 f15 f16 f17 f18 f19 f20
  end.

Definition set_inputAudioContextRef (v : option nat) (st : State) : State :=
  match st with
  | mkState f0 f1 f2 f3 f4 f5 f6 f7 f8 _ f10 f11 f12 f13 f14 f15 f16 f17 f18 f19 f20 =>
      mkState f0 f1 f2 f3 f4 f5 f6 f7 f8 v f10 f11 f12 f13 f14 f15 f16 f17 f18 f19 f20
  end.

Definition set_outputAudioContextRef (v : option nat) (st : State) : State :=
  match st with
  | mkState f0 f1 f2 f3 f4 f5 f6 f7 f8 f9 _ f11 f12 f13 f14 f15 f16 f17 f18 f19 f20 =>
      mkState f0 f1 f2 f3 f4 f5 f6 f7 f8 f9 v f11 f12 f13 f14 f15 f16 f17 f18 f19 f20
  end.

Definition set_scriptProcessorRef (v : option nat) (st : State) : State :=
  match st with
  | mkState f0 f1 f2 f3 f4 f5 f6 f7 f8 f9 f10 _ f12 f13 f14 f15 f16 f17 f18 f19 f20 =>
      mkState f0 f1 f2 f3 f4 f5 f6 f7 f8 f9 f10 v f12 f13 f14 f15 f16 f17 f18 f19 f20
  end.

Definition set_outputAudioSourcesRef (v : list nat) (st : State) : State :=
  match st with
  | mkState f0 f1 f2 f3 f4 f5 f6 f7 f8 f9 f10 f11 _ f13 f14 f15 f16 f17 f18 f19 f20 =>
      mkState f0 f1 f2 f3 f4 f5 f6 f7 f8 f9 f10 f11 v f13 f14 f15 f16 f17 f18 f19 f20
  end.

Definition set_nextStartTimeRef (v : float) (st : State) : State :=
  match st with
  | mkState f0 f1 f2 f3 f4 f5 f6 f7 f8 f9 f10 f11 f12 _ f14 f15 f16 f17 f18 f19 f20 =>
      mkState f0 f1 f2 f3 f4 f5 f6 f7 f8 f9 f10 f11 f12 v f14 f15 f16 f17 f18 f19 f20
  end.

Definition set_currentInputTranscriptionRef (v : string) (st : State) : State :=
  match st with
  | mkState f0 f1 f2 f3 f4 f5 f6 f7 f8 f9 f10 f11 f12 f13 _ f15 f16 f17 f18 f19 f20 =>
      mkState f0 f1 f2 f3 f4 f5 f6 f7 f8 f9 f10 f11 f12 f13 v f15 f16 f17 f18 f19 f20
  end.

Definition set_currentOutputTranscriptionRef (v : string) (st : State) : State :=
  match st with
  | mkState f0 f1 f2 f3 f4 f5 f6 f7 f8 f9 f10 f11 f12 f13 f14 _ f16 f17 f18 f19 f20 =>
      mkState f0 f1 f2 f3 f4 f5 f6 f7 f8 f9 f10 f11 f12 f13 f14 v f16 f17 f18 f19 f20
  end.

Definition set_lastUserMessageIdRef (v : string) (st : State) : State :=
  match st with
  | mkState f0 f1 f2 f3 f4 f5 f6 f7 f8 f9 f10 f11 f12 f13 f14 f15 _ f17 f18 f19 f20 =>
      mkState f0 f1 f2 f3 f4 f5 f6 f7 f8 f9 f10 f11 f12 f13 f14 f15 v f17 f18 f19 f20
  end.

Definition set_lastModelMessageIdRef (v : string) (st : State) : State :=
  match st with
  | mkState f0 f1 f2 f3 f4 f5 f6 f7 f8 f9 f10 f11 f12 f13 f14 f15 f16 _ f18 f19 f20 =>
      mkState f0 f1 f2 f3 f4 f5 f6 f7 f8 f9 f10 f11 f12 f13 f14 f15 f16 v f18 f19 f20
  end.

Definition set_promises (v : list Promise) (st : State) : State :=
  match st with
  | mkState f0 f1 f2 f3 f4 f5 f6 f7 f8 f9 f10 f11 f12 f13 f14 f15 f16 f17 _ f19 f20 =>
      mkState f0 f1 f2 f3 f4 f5 f6 f7 f8 f9 f10 f11 f12 f13 f14 f15 f16 f17 v f19 f20
  end.

Definition set_effects (v : list Effect) (st : State) : State :=
  match st with
  | mkState f0 f1 f2 f3 f4 f5 f6 f7 f8 f9 f10 f11 f12 f13 f14 f15 f16 f17 f18 _ f20 =>
      mkState f0 f1 f2 f3 f4 f5 f6 f7 f8 f9 f10 f11 f12 f13 f14 f15 f16 f17 f18 v f20
  end.

Definition set_nextObject (v : nat) (st : State) : State :=
  match st with
  | mkState f0 f1 f2 f3 f4 f5 f6 f7 f8 f9 f10 f11 f12 f13 f14 f15 f16 f17 f18 f19 _ =>
      mkState f0 f1 f2 f3 f4 f5 f6 f7 f8 f9 f10 f11 f12 f13 f14 f15 f16 f17 f18 f19 v
  end.


(** What a callback sees of the state cells. *)
Record Closure := {
  cl_isRecording : bool;
  cl_showPastTranscripts : bool;
  cl_messages : list ChatMessage
}.

Definition render (st : State) : Closure :=
  {| cl_isRecording := isRecording st;
     cl_showPastTranscripts := showPastTranscripts st;
     cl_messages := messages st |}.

Record Reading := {
  dateNow_user : N;       (* Date.now() in the input-transcription branch *)
  dateNow_model : N;      (* Date.now() in the output-transcription branch *)
  currentTime : float;    (* outputAudioContextRef.current.currentTime, as the
                             audio block reads it on entry, before the decoder
                             is awaited *)
  decodedDuration : option float
                          (* audioBuffer.duration of the buffer the decoder
                             resolves with; None when decode or
                             decodeAudioData throws *)
}.

(** The state of the first render. *)
Definition initial : State :=
  mkState false false [] "Press the mic to start the interview." [] false None
          None None None None None [] 0 "" "" "" "" [] [] 0.

(** ** Transcript *)

Definition sameMessage (message msg : ChatMessage) : bool :=
  String.eqb (id msg) (id message) && Speaker_eqb (speaker msg) (speaker message).

Definition addMessage_update (message : ChatMessage) (prevMessages : list ChatMessage)
  : list ChatMessage :=
  if isPartial message && truthy (id message) then
    match findIndex (sameMessage message) prevMessages with
    | Some existingMessageIndex => assign prevMessages existingMessageIndex message
    | None => prevMessages ++ [message]
    end
  else prevMessages ++ [message].

Definition addMessage (message : ChatMessage) (st : State) : State :=
  set_messages (addMessage_update message (messages st)) st.

Definition clearPartialMessages (st : State) : State :=
  set_messages (filter (fun msg => negb (isPartial msg)) (messages st)) st.

(** ** handleMessage, one block of the source per definition *)

Definition handleInputTranscription (r : Reading) (sc : ServerContent) (st : State) : State :=
  match inputTranscription sc with
  | Some tr =>
      let text := transcription_text tr in
      let st :=
        if truthy text then
          if negb (truthy (lastUserMessageIdRef st)) then
            let st := set_lastUserMessageIdRef ("user-" ++ decimal (dateNow_user r)) st in
            addMessage (mkMsg (lastUserMessageIdRef st) USER text true) st
          else
            addMessage (mkMsg (lastUserMessageIdRef st) USER text true) st
        else st in
      let st := set_currentInputTranscriptionRef text st in
      set_statusMessage "Listening..." st
  | None => st
  end.

Definition handleOutputTranscription (r : Reading) (sc : ServerContent) (st : State) : State :=
  match outputTranscription sc with
  | Some tr =>
      let text := transcription_text tr in
      let st :=
        if truthy text then
          if negb (truthy (lastModelMessageIdRef st)) then
            let st := set_lastModelMessageIdRef ("model-" ++ decimal (dateNow_model r)) st in
            addMessage (mkMsg (lastModelMessageIdRef st) MODEL text true) st
          else
            addMessage (mkMsg (lastModelMessageIdRef st) MODEL text true) st
        else st in
      let st := set_currentOutputTranscriptionRef text st in
      set_statusMessage "Speaking..." st
  | None => st
  end.

(** [message.serverContent?.modelTurn?.parts[0]?.inlineData?.data].  The
    expression is [undefined] when the model turn, the first part or its
    inline data is absent; it throws a TypeError when the model turn is there
    and its [parts] is not, since [parts] is indexed without a test. *)
Inductive Evaluated :=
| Undefined
| Defined (value : string)
| TypeError.

Definition base64EncodedAudioString (sc : ServerContent) : Evaluated :=
  match modelTurn sc with
  | Some content =>
      match parts content with
      | Some (part :: _) =>
          match inlineData part with
          | Some inline => Defined (data inline)
          | None => Undefined
          end
      | Some [] => Undefined
      | None => TypeError
      end
  | None => Undefined
  end.

(** How a block of the handler ends: it runs to its end, or an exception
    leaves the handler; either way with the state reached. *)
Inductive Completion :=
| Completes (st : State)
| Throws (st : State).

Definition stateOf (k : Completion) : State :=
  match k with Completes st | Throws st => st end.

Definition throws (k : Completion) : bool :=
  match k with Completes _ => false | Throws _ => true end.

Definition handleAudio (r : Reading) (sc : ServerContent) (st : State) : Completion :=
  match base64EncodedAudioString sc with
  | TypeError => Throws st
  | Undefined => Completes st
  | Defined base64 =>
      if truthy base64 then
        match outputAudioContextRef st with
        | Some _ =>
            let st := set_nextStartTimeRef
                        (Math_max (nextStartTimeRef st) (currentTime r)) st in
            (* await decodeAudioData(decode(base64EncodedAudioString), ...) *)
            match decodedDuration r with
            | Some duration =>
                (* createBufferSource() *)
                let source := nextObject st in
                let st := set_nextObject (S source) st in
                (* source.start(nextStartTimeRef.current) *)
                let st := set_effects
                            (effects st ++ [SourceStart source (nextStartTimeRef st) duration])
                            st in
                let st := set_nextStartTimeRef (nextStartTimeRef st + duration) st in
                let st := set_outputAudioSourcesRef (outputAudioSourcesRef st ++ [source]) st in
                Completes (set_statusMessage "Speaking..." st)
            | None => Throws st
            end
        | None => Completes st
        end
      else Completes st
  end.

Definition handleTurnComplete (c : Closure) (sc : ServerContent) (st : State) : State :=
  if turnComplete sc then
    let st :=
      if truthy (currentInputTranscriptionRef st) then
        let st := addMessage (mkMsg (lastUserMessageIdRef st) USER
                                    (currentInputTranscriptionRef st) false) st in
        let st := set_currentInputTranscriptionRef "" st in
        set_lastUserMessageIdRef "" st
      else st in
    let st :=
      if truthy (currentOutputTranscriptionRef st) then
        let st := addMessage (mkMsg (lastModelMessageIdRef st) MODEL
                                    (currentOutputTranscriptionRef st) false) st in
        let st := set_currentOutputTranscriptionRef "" st in
        set_lastModelMessageIdRef "" st
      else st in
    if negb (cl_isRecording c) && (List.length (outputAudioSourcesRef st) =? 0)%nat then
      set_statusMessage "Press the mic to continue." st
    else if cl_isRecording c then
      set_statusMessage "Listening..." st
    else st
  else st.

Definition handleInterrupted (sc : ServerContent) (st : State) : State :=
  if interrupted sc then
    (* for (const source of set.values()) { source.stop(); set.delete(source); } *)
    let st := set_effects (effects st ++ map SourceStop (outputAudioSourcesRef st)) st in
    let st := set_outputAudioSourcesRef [] st in
    let st := set_nextStartTimeRef 0 st in
    let st := clearPartialMessages st in
    set_statusMessage "Conversation interrupted. Please speak again." st
  else st.

Definition handleMessage (c : Closure) (r : Reading) (message : LiveServerMessage)
                         (st : State) : State :=
  match serverContent message with
  | Some sc =>
      let st := handleInputTranscription r sc st in
      let st := handleOutputTranscription r sc st in
      match handleAudio r sc st with
      | Completes st =>
          let st := handleTurnComplete c sc st in
          handleInterrupted sc st
      | Throws st => st
      end
  | None => st
  end.

(** The ['ended'] listener attached to a playback source. *)
Definition sourceEnded (c : Closure) (source : nat) (st : State) : State :=
  let st := set_outputAudioSourcesRef
              (filter (fun s => negb (Nat.eqb s source)) (outputAudioSourcesRef st)) st in
  if (List.length (outputAudioSourcesRef st) =? 0)%nat
     && negb (cl_isRecording c) && negb (cl_showPastTranscripts c)
  then set_statusMessage "Press the mic to continue." st
  else st.

(** ** Session promises in the heap *)

Fixpoint updateAt {A : Type} (f : A -> A) (i : nat) (l : list A) : list A :=
  match l, i with
  | [], _ => []
  | x :: l', O => f x :: l'
  | x :: l', S i' => x :: updateAt f i' l'
  end.

Definition onPromise (f : Promise -> Promise) (p : nat) (st : State) : State :=
  set_promises (updateAt f p (promises st)) st.

(** The promise returned by [ai.live.connect] is fulfilled with the session. *)
Definition connectFulfilled (p : nat) (st : State) : State := onPromise fulfil p st.

(** The promise returned by [ai.live.connect] is rejected. *)
Definition connectRejected (p : nat) (st : State) : State := onPromise reject p st.

Definition sessionCalls (p : nat) (st : State) : list SessionCall :=
  match nth_error (promises st) p with
  | Some cell => calls cell
  | None => []
  end.

Definition waiting (p : nat) (st : State) : list Reaction :=
  match nth_error (promises st) p with
  | Some cell => reactions cell
  | None => []
  end.

(** ** Archive

    [saveCurrentTranscript] hands [setSavedTranscripts] an updater that
    appends the new entry and writes the result to storage.  The stop
    routine, its only caller, sets the flags just before: on a session that
    is recording or loading this leaves an update pending, so React does not
    run the updater at the call but when it renders, after the routine has
    returned.  [saveCurrentTranscript] gives the cell the value the updater
    will return; the write the updater makes is [archiveUpdater], which the
    stop routine runs last.  (With no update pending React may run an updater
    at the call; the value written is the same.) *)

Definition saveCurrentTranscript (c : Closure) (now_id now_ts : N) (st : State) : State :=
  if (0 <? List.length (cl_messages c))%nat then
    let newTranscript :=
      mkSaved ("transcript-" ++ decimal now_id) now_ts
              (filter (fun msg => negb (isPartial msg)) (cl_messages c)) in
    let updated := savedTranscripts st ++ [newTranscript] in
    let st := set_savedTranscripts updated st in
    set_statusMessage "Interview ended and transcript saved!" st
  else
    set_statusMessage "Interview ended." st.

(** [localStorage.setItem('interviewTranscripts', JSON.stringify(updated))],
    when the updater of [saveCurrentTranscript] is run. *)
Definition archiveUpdater (c : Closure) (st : State) : State :=
  if (0 <? List.length (cl_messages c))%nat
  then set_effects (effects st ++ [StorageSet (savedTranscripts st)]) st
  else st.

(** ** Lifecycle *)

Definition stopInterview (c : Closure) (now_id now_ts : N) (st : State) : State :=
  let st := set_isRecording false st in
  let st := set_isLoading false st in
  let st := saveCurrentTranscript c now_id now_ts st in
  let st := set_messages [] st in
  (* Stop microphone stream *)
  let st :=
    match streamRef st with
    | Some stream =>
        let st := set_effects (effects st ++ [TrackStop stream]) st in
        set_streamRef None st
    | None => st
    end in
  (* Disconnect audio nodes *)
  let st :=
    match scriptProcessorRef st, inputAudioContextRef st with
    | Some node, Some ctx =>
        let st := set_effects (effects st ++ [NodeDisconnect node; ContextClose ctx]) st in
        let st := set_inputAudioContextRef None st in
        set_scriptProcessorRef None st
    | _, _ => st
    end in
  (* Stop all playing model audio *)
  let st := set_effects (effects st ++ map SourceStop (outputAudioSourcesRef st)) st in
  let st := set_outputAudioSourcesRef [] st in
  let st := set_nextStartTimeRef 0 st in
  let st :=
    match outputAudioContextRef st with
    | Some ctx =>
        let st := set_effects (effects st ++ [ContextClose ctx]) st in
        set_outputAudioContextRef None st
    | None => st
    end in
  (* Close Live API session *)
  let st :=
    match liveSessionRef st with
    | Some p =>
        let st := onPromise (then_ ThenClose) p st in
        set_liveSessionRef None st
    | None => st
    end in
  let st := clearPartialMessages st in
  let st := set_currentInputTranscriptionRef "" st in
  let st := set_currentOutputTranscriptionRef "" st in
  let st := set_lastUserMessageIdRef "" st in
  let st := set_lastModelMessageIdRef "" st in
  (* the routine has returned; React renders *)
  archiveUpdater c st.

Definition handleError (c : Closure) (e_message : string) (now_id now_ts : N)
                       (st : State) : State :=
  let st := set_statusMessage ("Error: " ++ e_message ++ ". Please try again.") st in
  stopInterview c now_id now_ts st.

Definition handleClose (c : Closure) (now_id now_ts : N) (st : State) : State :=
  if cl_isRecording c then
    let st := set_statusMessage
                "Interview ended due to connection loss. Please restart." st in
    stopInterview c now_id now_ts st
  else st.

(** [startInterview] up to its first [await]. *)
Definition startInterview_begin (st : State) : State :=
  let st := set_isLoading true st in
  let st := set_statusMessage "Connecting to AI interviewer..." st in
  let st := set_messages [] st in
  let st := clearPartialMessages st in
  let st := set_lastUserMessageIdRef "" st in
  let st := set_lastModelMessageIdRef "" st in
  let st := set_showPastTranscripts false st in
  set_selectedPastTranscript None st.

(** [startInterview] once both [getUserMedia] calls have resolved with a
    stream: the first stream is only tested, the second one is kept. *)
Definition startInterview_granted (st : State) : State :=
  let tested := nextObject st in
  let stream := S tested in
  let inputCtx := S stream in
  let outputCtx := S inputCtx in
  let node := S outputCtx in
  let st := set_nextObject (S node) st in
  let st := set_streamRef (Some stream) st in
  let st := set_inputAudioContextRef (Some inputCtx) st in
  let st := set_outputAudioContextRef (Some outputCtx) st in
  (* liveSessionRef.current = ai.live.connect({ ... }) *)
  let p := List.length (promises st) in
  let st := set_promises (promises st ++ [mkPromise Pending [] []]) st in
  let st := set_liveSessionRef (Some p) st in
  set_scriptProcessorRef (Some node) st.

(** The [catch] block of [startInterview]. *)
Definition startInterview_failed (c : Closure) (error_message : option string)
                                 (now_id now_ts : N) (st : State) : State :=
  let st := set_isLoading false st in
  let st := set_isRecording false st in
  let st :=
    match error_message with
    | Some m => set_statusMessage ("Failed to start: " ++ m) st
    | None => set_statusMessage
                "Failed to start the interview due to an unknown error." st
    end in
  stopInterview c now_id now_ts st.

(** The [onopen] callback handed to [ai.live.connect]. *)
Definition onopen (st : State) : State :=
  let st := set_isRecording true st in
  let st := set_isLoading false st in
  set_statusMessage "Interview started. Waiting for AI to speak..." st.

(** The [onaudioprocess] callback of the script processor. *)
Definition onaudioprocess (inputData : list Z) (st : State) : State :=
  let pcmBlob := createBlob inputData in
  match liveSessionRef st with
  | Some p => onPromise (then_ (ThenSend pcmBlob)) p st
  | None => st
  end.

(** ** Runs *)

Record Inbound := {
  in_closure : Closure;
  in_reading : Reading;
  in_message : LiveServerMessage
}.

Definition deliver (i : Inbound) (st : State) : State :=
  handleMessage (in_closure i) (in_reading i) (in_message i) st.

(** What can happen to a session between its start and its stop. *)
Inductive Event :=
| Message (i : Inbound)                     (* onmessage *)
| Ended (c : Closure) (source : nat)        (* 'ended' on a playback source *)
| Captured (inputData : list Z).            (* onaudioprocess *)

Definition step (e : Event) (st : State) : State :=
  match e with
  | Message i => deliver i st
  | Ended c source => sourceEnded c source st
  | Captured inputData => onaudioprocess inputData st
  end.

(** Events handled one after the other, oldest first. *)
Definition play (events : list Event) (st : State) : State :=
  fold_left (fun st e => step e st) events st.

(** Capture frames handled one after the other, oldest first. *)
Definition capture (frames : list (list Z)) (st : State) : State :=
  fold_left (fun st f => onaudioprocess f st) frames st.

(** ** Vocabulary of the statements *)

(** The open-partial slot of a speaker: the pending cumulative text and the
    id of the message that shows it. *)
Definition pendingText (s : Speaker) (st : State) : string :=
  match s with
  | USER => currentInputTranscriptionRef st
  | MODEL => currentOutputTranscriptionRef st
  | SYSTEM => ""
  end.

Definition slotId (s : Speaker) (st : State) : string :=
  match s with
  | USER => lastUserMessageIdRef st
  | MODEL => lastModelMessageIdRef st
  | SYSTEM => ""
  end.

Definition transcriptionFor (s : Speaker) (sc : ServerContent) : option Transcription :=
  match s with
  | USER => inputTranscription sc
  | MODEL => outputTranscription sc
  | SYSTEM => None
  end.

(** The transcription block of a speaker. *)
Definition handleTranscription (s : Speaker) (r : Reading) (sc : ServerContent)
                               (st : State) : State :=
  match s with
  | USER => handleInputTranscription r sc st
  | MODEL => handleOutputTranscription r sc st
  | SYSTEM => st
  end.

Definition bySpeaker (s : Speaker) (l : list ChatMessage) : list ChatMessage :=
  filter (fun msg => Speaker_eqb (speaker msg) s) l.

(** The partial messages of a speaker that the transcript shows. *)
Definition isOpen (s : Speaker) (msg : ChatMessage) : bool :=
  isPartial msg && Speaker_eqb (speaker msg) s.

Definition openPartials (s : Speaker) (l : list ChatMessage) : list ChatMessage :=
  filter (isOpen s) l.

(** The finalized message of a speaker's slot, if its pending text is not empty. *)
Definition finalOf (s : Speaker) (st : State) : list ChatMessage :=
  if truthy (pendingText s st)
  then [mkMsg (slotId s st) s (pendingText s st) false]
  else [].

Definition finalsOfTurn (st : State) : list ChatMessage :=
  finalOf USER st ++ finalOf MODEL st.

(** A chunk handed to the scheduler: the clock read when its audio block
    is entered, and the duration of its buffer if the decoder returns one. *)
Definition Chunk : Type := (float * option float)%type.

(** A playback handle: start time and duration. *)
Definition Handle : Type := (float * float)%type.

Definition interruptedIn (i : Inbound) : bool :=
  match serverContent (in_message i) with
  | Some sc => interrupted sc
  | None => false
  end.

Definition interrupts (e : Event) : bool :=
  match e with
  | Message i => interruptedIn i
  | _ => false
  end.

(** Does the message carry audio data that the audio block can test? *)
Definition hasAudio (sc : ServerContent) : bool :=
  match base64EncodedAudioString sc with
  | Defined base64 => truthy base64
  | _ => false
  end.

(** The chunk an inbound message hands to the scheduler of a session that
    has an output context, if it carries audio. *)
Definition chunkOf (i : Inbound) : list Chunk :=
  match serverContent (in_message i) with
  | Some sc =>
      if hasAudio sc
      then [(currentTime (in_reading i), decodedDuration (in_reading i))]
      else []
  | None => []
  end.

Definition enqueued (events : list Event) : list Chunk :=
  flat_map (fun e => match e with
                     | Message i => chunkOf i
                     | _ => []
                     end) events.

(** The handles started so far, oldest first. *)
Definition started (l : list Effect) : list Handle :=
  flat_map (fun e => match e with
                     | SourceStart _ when duration => [(when, duration)]
                     | _ => []
                     end) l.

(** The schedule described by the cursor rule: move the cursor to the later
    of cursor and clock; if the chunk decodes, start it there and move the
    cursor on by its duration. *)
Fixpoint plan (cursor : float) (chunks : list Chunk) : list Handle :=
  match chunks with
  | [] => []
  | (now, decoded) :: rest =>
      let start := Math_max cursor now in
      match decoded with
      | Some duration => (start, duration) :: plan (start + duration) rest
      | None => plan start rest
      end
  end.

Fixpoint cursorAfter (cursor : float) (chunks : list Chunk) : float :=
  match chunks with
  | [] => cursor
  | (now, decoded) :: rest =>
      let start := Math_max cursor now in
      match decoded with
      | Some duration => cursorAfter (start + duration) rest
      | None => cursorAfter start rest
      end
  end.

(** The id an utterance is shown under: the one in the slot, or a new one
    made from the clock when the slot is empty. *)
Definition idPrefix (s : Speaker) : string :=
  match s with
  | USER => "user-"
  | MODEL => "model-"
  | SYSTEM => ""
  end.

Definition dateNowFor (s : Speaker) (r : Reading) : N :=
  match s with
  | USER => dateNow_user r
  | _ => dateNow_model r
  end.

Definition utteranceId (s : Speaker) (r : Reading) (st : State) : string :=
  if truthy (slotId s st) then slotId s st
  else idPrefix s ++ decimal (dateNowFor s r).

(** The text a message supplies for a speaker; empty when the field is absent. *)
Definition textOf (s : Speaker) (sc : ServerContent) : string :=
  match transcriptionFor s sc with
  | Some tr => transcription_text tr
  | None => ""
  end.

(** Successive transcription updates of one speaker, oldest first. *)
Definition applyPartials (s : Speaker) (updates : list (Reading * ServerContent))
                         (st : State) : State :=
  fold_left (fun st u => handleTranscription s (fst u) (snd u) st) updates st.

(** [findIndex] followed by [assign], or by a push when nothing is found. *)
Fixpoint replaceFirst {A : Type} (p : A -> bool) (v : A) (l : list A) : list A :=
  match l with
  | [] => [v]
  | x :: l' => if p x then v :: l' else x :: replaceFirst p v l'
  end.

(** The transcript shows exactly one partial of [s], it is [P], it is the
    first message under its id, and the slot of [s] points to it. *)
Definition Tracking (s : Speaker) (P : ChatMessage) (st : State) : Prop :=
  openPartials s (messages st) = [P] /\
  find (sameMessage P) (messages st) = Some P /\
  slotId s st = id P /\ truthy (id P) = true /\
  speaker P = s /\ isPartial P = true /\
  pendingText s st = text P.

(** The stop routine finds nothing to release.  (An input context without
    a script processor may remain: the routine closes the two together.) *)
Definition Idle (st : State) : Prop :=
  isRecording st = false /\ isLoading st = false /\ messages st = [] /\
  streamRef st = None /\
  (scriptProcessorRef st = None \/ inputAudioContextRef st = None) /\
  outputAudioSourcesRef st = [] /\ nextStartTimeRef st = 0 /\
  outputAudioContextRef st = None /\ liveSessionRef st = None /\
  currentInputTranscriptionRef st = "" /\ currentOutputTranscriptionRef st = "" /\
  lastUserMessageIdRef st = "" /\ lastModelMessageIdRef st = "".

(** ** Sample inputs *)

Definition heard (t : string) : ServerContent :=
  {| inputTranscription := Some {| transcription_text := t |};
     outputTranscription := None; modelTurn := None;
     turnComplete := false; interrupted := false |}.

Definition spoken (t : string) : ServerContent :=
  {| inputTranscription := None;
     outputTranscription := Some {| transcription_text := t |}; modelTurn := None;
     turnComplete := false; interrupted := false |}.

Definition chunk (base64 : string) : ServerContent :=
  {| inputTranscription := None; outputTranscription := None;
     modelTurn := Some {| parts := Some [ {| inlineData := Some {| data := base64 |} |} ] |};
     turnComplete := false; interrupted := false |}.

Definition turnDone : ServerContent :=
  {| inputTranscription := None; outputTranscription := None; modelTurn := None;
     turnComplete := true; interrupted := false |}.

Definition bargeIn : ServerContent :=
  {| inputTranscription := None; outputTranscription := None; modelTurn := None;
     turnComplete := false; interrupted := true |}.


(** A model turn without [parts], with the interrupted flag. *)
Definition emptyTurnThenBargeIn : ServerContent :=
  {| inputTranscription := None; outputTranscription := None;
     modelTurn := Some {| parts := None |};
     turnComplete := false; interrupted := true |}.

(** Readings of a message whose audio decodes to a buffer of [duration]. *)
Definition at_ (now : N) (clock duration : float) : Reading :=
  {| dateNow_user := now; dateNow_model := now;
     currentTime := clock; decodedDuration := Some duration |}.


Definition inbound (c : Closure) (r : Reading) (sc : ServerContent) : Event :=
  Message {| in_closure := c; in_reading := r;
             in_message := {| serverContent := Some sc |} |}.

(** A session that has been started and whose stream is open. *)
Definition active : State :=
  onopen (connectFulfilled 0 (startInterview_granted (startInterview_begin initial))).

(** A session that has been started and whose promise is still pending. *)
Definition connecting : State :=
  startInterview_granted (startInterview_begin initial).

(** ** The rest of the component

    The remaining callbacks of the component, and the vocabulary of the
    properties proved about them in the last part of the file. *)

(** [startInterview] between the creation of the two audio contexts and the
    call of [ai.live.connect]: the streams and the contexts exist, the
    session promise and the script processor do not yet.  An exception thrown
    from here on enters the [catch] block with the state in this shape. *)
Definition startInterview_contexts (st : State) : State :=
  let tested := nextObject st in
  let stream := S tested in
  let inputCtx := S stream in
  let outputCtx := S inputCtx in
  let st := set_nextObject (S outputCtx) st in
  let st := set_streamRef (Some stream) st in
  let st := set_inputAudioContextRef (Some inputCtx) st in
  set_outputAudioContextRef (Some outputCtx) st.

(** [toggleInterview] is rebuilt by every render, so it reads the current
    cells; the [startInterview] it calls is shown up to its first [await]. *)
Definition toggleInterview (now_id now_ts : N) (st : State) : State :=
  if isRecording st || isLoading st
  then stopInterview (render st) now_id now_ts st
  else startInterview_begin st.

(** The closure of the first render.  [handleError] and the cleanup of the
    mount effect are created once, with an empty dependency list, so the
    [stopInterview] they call is the one of this closure. *)
Definition firstRender : Closure :=
  {| cl_isRecording := false; cl_showPastTranscripts := false; cl_messages := [] |}.

(** The mount effect.  The stored item is represented by the archive whose
    [JSON.stringify] it is; [None] is an absent item. *)
Definition mountEffect (storedTranscripts : option (list SavedTranscriptSession))
                       (st : State) : State :=
  match storedTranscripts with
  | Some parsed => set_savedTranscripts parsed st
  | None => st
  end.

(** The cleanup function the mount effect returns. *)
Definition unmountEffect (now_id now_ts : N) (st : State) : State :=
  stopInterview firstRender now_id now_ts st.

Definition deleteTranscript (id_ : string) (st : State) : State :=
  let updated := filter (fun t => negb (String.eqb (saved_id t) id_))
                        (savedTranscripts st) in
  let st := set_effects (effects st ++ [StorageSet updated]) st in
  let st := set_savedTranscripts updated st in
  match selectedPastTranscript st with
  | Some t => if String.eqb (saved_id t) id_
              then set_selectedPastTranscript None st
              else st
  | None => st
  end.

(** [clearAllTranscripts]; the argument is the answer to [window.confirm]. *)
Definition clearAllTranscripts (confirmed : bool) (st : State) : State :=
  if confirmed then
    let st := set_effects (effects st ++ [StorageRemove]) st in
    let st := set_savedTranscripts [] st in
    let st := set_selectedPastTranscript None st in
    set_statusMessage "All past transcripts cleared." st
  else st.

(** The [View] button of the row that shows the [k]-th archive entry. *)
Definition viewTranscript (k : nat) (st : State) : State :=
  match nth_error (savedTranscripts st) k with
  | Some transcript => set_selectedPastTranscript (Some transcript) st
  | None => st
  end.

(** Everything that can happen to the mounted component. *)
Inductive Action :=
| Toggle (now_id now_ts : N)
| Granted                                   (* both getUserMedia calls resolved *)
| Failed (c : Closure) (error_message : option string) (now_id now_ts : N)
| Opened                                    (* onopen *)
| ConnectFulfilled (p : nat)
| ConnectRejected (p : nat)
| Happens (e : Event)                       (* onmessage, 'ended', onaudioprocess *)
| Stop (c : Closure) (now_id now_ts : N)
| Errored (c : Closure) (e_message : string) (now_id now_ts : N)
| Closed (c : Closure) (now_id now_ts : N)
| ShowPast (show : bool)
| View (k : nat)
| BackToList
| Delete (id_ : string)
| ClearAll (confirmed : bool).

Definition act (a : Action) (st : State) : State :=
  match a with
  | Toggle now_id now_ts => toggleInterview now_id now_ts st
  | Granted => startInterview_granted st
  | Failed c error_message now_id now_ts =>
      startInterview_failed c error_message now_id now_ts st
  | Opened => onopen st
  | ConnectFulfilled p => connectFulfilled p st
  | ConnectRejected p => connectRejected p st
  | Happens e => step e st
  | Stop c now_id now_ts => stopInterview c now_id now_ts st
  | Errored c e_message now_id now_ts => handleError c e_message now_id now_ts st
  | Closed c now_id now_ts => handleClose c now_id now_ts st
  | ShowPast show => set_showPastTranscripts show st
  | View k => viewTranscript k st
  | BackToList => set_selectedPastTranscript None st
  | Delete id_ => deleteTranscript id_ st
  | ClearAll confirmed => clearAllTranscripts confirmed st
  end.

(** Actions performed one after the other, oldest first.  Closures and the
    order of the actions are not constrained, so every real execution of the
    component is among these runs. *)
Definition perform (actions : list Action) (st : State) : State :=
  fold_left (fun st a => act a st) actions st.

(** Ids of the playback sources that were started, of those that were
    stopped, and of the streams whose tracks were stopped, oldest first. *)
Definition startedIds (l : list Effect) : list nat :=
  flat_map (fun e => match e with SourceStart source _ _ => [source] | _ => [] end) l.

Definition stoppedIds (l : list Effect) : list nat :=
  flat_map (fun e => match e with SourceStop source => [source] | _ => [] end) l.

Definition stoppedTracks (l : list Effect) : list nat :=
  flat_map (fun e => match e with TrackStop stream => [stream] | _ => [] end) l.

(** The values written to the storage item, oldest first. *)
Definition written (l : list Effect) : list (list SavedTranscriptSession) :=
  flat_map (fun e => match e with StorageSet value => [value] | _ => [] end) l.

(** The live sources are distinct, started and not stopped; only started
    sources were stopped, each once; every source was started once, under an
    id that came from the allocator. *)
Definition Scheduled (live started stopped : list nat) (next : nat) : Prop :=
  NoDup live /\ NoDup stopped /\ NoDup started /\
  (forall s, In s live -> In s started /\ ~ In s stopped) /\
  (forall s, In s stopped -> In s started) /\
  (forall s, In s started -> (s < next)%nat).

Definition SchedulerOk (st : State) : Prop :=
  Scheduled (outputAudioSourcesRef st) (startedIds (effects st))
            (stoppedIds (effects st)) (nextObject st).

(** Is the audio block entered?  It is when the message carries audio and
    the session has an output context. *)
Definition entersAudio (sc : ServerContent) (st : State) : bool :=
  match outputAudioContextRef st with
  | Some _ => hasAudio sc
  | None => false
  end.

(** The duration of the source the audio block starts, if it starts one. *)
Definition enqueues (r : Reading) (sc : ServerContent) (st : State) : option float :=
  if entersAudio sc st then decodedDuration r else None.

(** Does the audio block throw? *)
Definition audioThrows (r : Reading) (sc : ServerContent) (st : State) : bool :=
  throws (handleAudio r sc st).

(** Is the interrupted block reached with the flag set? *)
Definition flushes (r : Reading) (sc : ServerContent) (st : State) : bool :=
  interrupted sc && negb (audioThrows r sc st).

(** The calls made on the storage item, oldest first: [Some value] is a
    write of [value], [None] is a removal. *)
Definition storageCalls (l : list Effect) : list (option (list SavedTranscriptSession)) :=
  flat_map (fun e => match e with
                     | StorageSet value => [Some value]
                     | StorageRemove => [None]
                     | _ => []
                     end) l.

(** The storage item after the calls of a trace, from the item before them;
    [None] is an absent item. *)
Definition storedItem (item : option (list SavedTranscriptSession)) (l : list Effect)
  : option (list SavedTranscriptSession) :=
  last (storageCalls l) item.

(** The archive the mount effect leaves in the cell of the first render. *)
Definition loaded (item : option (list SavedTranscriptSession))
  : list SavedTranscriptSession :=
  match item with Some parsed => parsed | None => [] end.

(** What the stop routine lets go of. *)
Definition heldStream (st : State) : list nat :=
  match streamRef st with Some stream => [stream] | None => [] end.

(** What a handler leaves alone when it only deals with the conversation. *)
Definition beyondConversation (st : State) :=
  (isRecording st, isLoading st, savedTranscripts st, showPastTranscripts st,
   selectedPastTranscript st,
   (liveSessionRef st, streamRef st, inputAudioContextRef st,
    outputAudioContextRef st, scriptProcessorRef st, promises st)).

(** Every archive entry holds finalized messages only. *)
Definition finalizedOnly (archive : list SavedTranscriptSession) : Prop :=
  forall t msg, In t archive -> In msg (saved_messages t) -> isPartial msg = false.

(** The entry [saveCurrentTranscript] builds from the transcript it sees. *)
Definition entryOf (c : Closure) (now_id now_ts : N) : SavedTranscriptSession :=
  mkSaved ("transcript-" ++ decimal now_id) now_ts
          (filter (fun msg => negb (isPartial msg)) (cl_messages c)).

(** The calls the stop routine makes on browser objects, in order, and the
    write of the archive updater after them. *)
Definition released (c : Closure) (now_id now_ts : N) (st : State) : list Effect :=
  map TrackStop (heldStream st)
  ++ match scriptProcessorRef st, inputAudioContextRef st with
     | Some node, Some ctx => [NodeDisconnect node; ContextClose ctx]
     | _, _ => []
     end
  ++ map SourceStop (outputAudioSourcesRef st)
  ++ match outputAudioContextRef st with
     | Some ctx => [ContextClose ctx]
     | None => []
     end
  ++ (if (0 <? List.length (cl_messages c))%nat
      then [StorageSet (savedTranscripts st ++ [entryOf c now_id now_ts])]
      else []).

(** What the stop routine reads: every cell but the flags and the status. *)
Definition beyondFlags (st : State) :=
  (messages st, savedTranscripts st, showPastTranscripts st, selectedPastTranscript st,
   (liveSessionRef st, streamRef st, inputAudioContextRef st, outputAudioContextRef st,
    scriptProcessorRef st),
   (outputAudioSourcesRef st, nextStartTimeRef st),
   (currentInputTranscriptionRef st, currentOutputTranscriptionRef st,
    lastUserMessageIdRef st, lastModelMessageIdRef st),
   (promises st, effects st, nextObject st)).

(** What the handlers of the archive view and of the connection leave alone. *)
Definition traceView (st : State) :=
  (effects st, outputAudioSourcesRef st, nextObject st, savedTranscripts st,
   streamRef st).

(** No message of the transcript has an empty text. *)
Definition noEmptyText (l : list ChatMessage) : Prop :=
  forall msg, In msg l -> truthy (text msg) = true.

(** * Properties *)

(** ** Tactics *)

Ltac unfold_setters :=
  unfold set_isRecording, set_isLoading, set_messages, set_statusMessage,
    set_savedTranscripts, set_showPastTranscripts, set_selectedPastTranscript,
    set_liveSessionRef, set_streamRef, set_inputAudioContextRef,
    set_outputAudioContextRef, set_scriptProcessorRef, set_outputAudioSourcesRef,
    set_nextStartTimeRef, set_currentInputTranscriptionRef,
    set_currentOutputTranscriptionRef, set_lastUserMessageIdRef,
    set_lastModelMessageIdRef, set_promises, set_effects, set_nextObject.

Ltac unfold_blocks :=
  unfold handleInputTranscription, handleOutputTranscription, handleAudio,
    handleTurnComplete, handleInterrupted, addMessage, clearPartialMessages.

(** Decides one test whose subject is not itself under a test. *)
Ltac split_test :=
  match goal with
  | |- context [match ?x with _ => _ end] =>
      lazymatch x with
      | context [match _ with _ => _ end] => fail
      | _ => destruct x eqn:?
      end
  end.

(** Opens the state, runs the blocks and decides their tests, outermost first. *)
Ltac run_blocks st :=
  destruct st; unfold_blocks; unfold_setters; cbn; repeat (split_test; cbn).

(** The audio expression and the maximum are read through their lemmas. *)
Local Arguments base64EncodedAudioString : simpl never.
Local Arguments Math_max : simpl never.

(** ** Strings and lists *)

Lemma truthy_false_iff (s : string) : truthy s = false <-> s = "".
Proof. destruct s; cbn; split; congruence. Qed.

Lemma sameMessage_refl (m : ChatMessage) : sameMessage m m = true.
Proof.
  unfold sameMessage. rewrite String.eqb_refl. destruct (speaker m); reflexivity.
Qed.

(** ** What each block leaves alone *)

Section Frames.
Variables (c : Closure) (r : Reading) (sc : ServerContent) (st : State).

Lemma input_scheduler :
  let st' := handleInputTranscription r sc st in
  effects st' = effects st /\ outputAudioSourcesRef st' = outputAudioSourcesRef st /\
  nextStartTimeRef st' = nextStartTimeRef st /\ nextObject st' = nextObject st /\
  outputAudioContextRef st' = outputAudioContextRef st.
Proof. run_blocks st; repeat split. Qed.

Lemma output_scheduler :
  let st' := handleOutputTranscription r sc st in
  effects st' = effects st /\ outputAudioSourcesRef st' = outputAudioSourcesRef st /\
  nextStartTimeRef st' = nextStartTimeRef st /\ nextObject st' = nextObject st /\
  outputAudioContextRef st' = outputAudioContextRef st.
Proof. run_blocks st; repeat split. Qed.

Lemma turnComplete_scheduler :
  let st' := handleTurnComplete c sc st in
  effects st' = effects st /\ outputAudioSourcesRef st' = outputAudioSourcesRef st /\
  nextStartTimeRef st' = nextStartTimeRef st /\ nextObject st' = nextObject st /\
  outputAudioContextRef st' = outputAudioContextRef st.
Proof. run_blocks st; repeat split. Qed.

Lemma audio_context :
  outputAudioContextRef (stateOf (handleAudio r sc st)) = outputAudioContextRef st.
Proof. run_blocks st; reflexivity. Qed.

(** The handler runs the blocks after the audio block unless that one
    throws. *)
Lemma handleMessage_runs :
  let st2 := handleOutputTranscription r sc (handleInputTranscription r sc st) in
  handleMessage c r {| serverContent := Some sc |} st
  = if audioThrows r sc st2
    then stateOf (handleAudio r sc st2)
    else handleInterrupted sc (handleTurnComplete c sc (stateOf (handleAudio r sc st2))).
Proof.
  unfold handleMessage, audioThrows. cbn [serverContent].
  now destruct (handleAudio r sc
                  (handleOutputTranscription r sc (handleInputTranscription r sc st))).
Qed.

(** Whether the audio block throws depends on the message, on the decoder
    and on the presence of an output context. *)
Lemma audioThrows_reads :
  audioThrows r sc st
  = match base64EncodedAudioString sc with
    | TypeError => true
    | _ => entersAudio sc st
           && match decodedDuration r with Some _ => false | None => true end
    end.
Proof.
  unfold audioThrows, entersAudio, hasAudio.
  run_blocks st; reflexivity.
Qed.

End Frames.

Lemma audioThrows_context (r : Reading) (sc : ServerContent) (st st' : State) :
  outputAudioContextRef st' = outputAudioContextRef st ->
  audioThrows r sc st' = audioThrows r sc st.
Proof.
  intros H. rewrite !audioThrows_reads. unfold entersAudio. now rewrite H.
Qed.

Lemma deliver_runs (i : Inbound) (sc : ServerContent) (st : State) :
  serverContent (in_message i) = Some sc ->
  let c := in_closure i in
  let r := in_reading i in
  let st2 := handleOutputTranscription r sc (handleInputTranscription r sc st) in
  deliver i st
  = if audioThrows r sc st2
    then stateOf (handleAudio r sc st2)
    else handleInterrupted sc (handleTurnComplete c sc (stateOf (handleAudio r sc st2))).
Proof.
  intros Hsc. cbv zeta. rewrite <- handleMessage_runs.
  unfold deliver, handleMessage. now rewrite Hsc.
Qed.

(** ** Turn completion *)

Lemma turnComplete_messages (c : Closure) (sc : ServerContent) (st : State) :
  turnComplete sc = true ->
  messages (handleTurnComplete c sc st) = messages st ++ finalsOfTurn st.
Proof.
  intros H. unfold finalsOfTurn, finalOf.
  destruct st; unfold_blocks; unfold_setters; cbn. rewrite H.
  repeat (split_test; cbn); unfold addMessage_update; cbn;
    rewrite ?app_nil_r, <- ?app_assoc; reflexivity.
Qed.

Lemma turnComplete_slots (c : Closure) (sc : ServerContent) (st : State) (s : Speaker) :
  turnComplete sc = true ->
  pendingText s (handleTurnComplete c sc st) = "" /\
  (truthy (pendingText s st) = true -> slotId s (handleTurnComplete c sc st) = "") /\
  (truthy (pendingText s st) = false ->
   slotId s (handleTurnComplete c sc st) = slotId s st).
Proof.
  intros H.
  destruct st; unfold_blocks; unfold_setters; cbn. rewrite H.
  destruct s; cbn; repeat (split_test; cbn); repeat split; intros;
    try congruence; try (now apply truthy_false_iff).
Qed.

Lemma finalsOfTurn_nil (st : State) :
  pendingText USER st = "" -> pendingText MODEL st = "" -> finalsOfTurn st = [].
Proof.
  unfold finalsOfTurn, finalOf. intros -> ->. reflexivity.
Qed.

Lemma bySpeaker_finals (s : Speaker) (st : State) :
  s <> SYSTEM -> bySpeaker s (finalsOfTurn st) = finalOf s st.
Proof.
  intros Hs. unfold finalsOfTurn, finalOf, bySpeaker.
  destruct s; try congruence; cbn;
    destruct (truthy (currentInputTranscriptionRef st));
    destruct (truthy (currentOutputTranscriptionRef st)); reflexivity.
Qed.

(** C3. Handling a turn-complete signal appends, for each speaker whose
    pending text is not empty, exactly one finalized message carrying that
    text under the slot's id, and clears the slot; it appends nothing for a
    speaker whose pending text is empty; a second turn-complete handled
    right after appends nothing at all. *)
Theorem turnComplete_finalizes_once :
  forall (c : Closure) (sc : ServerContent) (st : State),
    turnComplete sc = true ->
    let st' := handleTurnComplete c sc st in
    messages st' = messages st ++ finalsOfTurn st /\
    (forall s, s <> SYSTEM -> truthy (pendingText s st) = true ->
       bySpeaker s (finalsOfTurn st) = [mkMsg (slotId s st) s (pendingText s st) false] /\
       pendingText s st' = "" /\ slotId s st' = "") /\
    (forall s, truthy (pendingText s st) = false -> bySpeaker s (finalsOfTurn st) = []) /\
    (forall c' sc', turnComplete sc' = true ->
       messages (handleTurnComplete c' sc' st') = messages st').
Proof.
  intros c sc st H st'. subst st'.
  split; [now apply turnComplete_messages|]. split; [|split].
  - intros s Hs Hp. split; [|split].
    + rewrite bySpeaker_finals by assumption. unfold finalOf. now rewrite Hp.
    + now apply turnComplete_slots.
    + now apply turnComplete_slots.
  - intros s Hs. destruct s.
    + rewrite bySpeaker_finals by congruence. unfold finalOf. now rewrite Hs.
    + rewrite bySpeaker_finals by congruence. unfold finalOf. now rewrite Hs.
    + unfold bySpeaker, finalsOfTurn, finalOf. cbn.
      destruct (truthy (currentInputTranscriptionRef st));
        destruct (truthy (currentOutputTranscriptionRef st)); reflexivity.
  - intros c' sc' H'. rewrite (turnComplete_messages c' _ _ H').
    rewrite finalsOfTurn_nil.
    + now rewrite app_nil_r.
    + now apply (turnComplete_slots c sc st USER).
    + now apply (turnComplete_slots c sc st MODEL).
Qed.

(** Witness of C3: the agent said [Hello], then [Hello there], and the turn
    ends; one finalized message is appended and it reads [Hello there]. *)
Lemma turnComplete_finalizes_once_witness :
  let st := applyPartials MODEL [(at_ 7 0 0, spoken "Hello");
                                 (at_ 8 0 0, spoken "Hello there")] active in
  turnComplete turnDone = true /\
  messages (handleTurnComplete (render active) turnDone st)
  = messages st ++ [mkMsg "model-7" MODEL "Hello there" false].
Proof.
  cbv zeta. split; [reflexivity|].
  apply (turnComplete_finalizes_once (render active) turnDone
           (applyPartials MODEL [(at_ 7 0 0, spoken "Hello");
                                 (at_ 8 0 0, spoken "Hello there")] active)).
  reflexivity.
Defined.

(** ** Empty transcription text *)

(** C9. A transcription whose text is empty resets the speaker's pending
    text and leaves the transcript and the slot's id as they are; while the
    pending text stays empty, a turn-complete appends no message of that
    speaker and keeps every message the transcript held, a stale partial
    included. *)
Theorem empty_text_resets_pending :
  forall (s : Speaker) (r : Reading) (sc : ServerContent) (st : State),
    s <> SYSTEM ->
    transcriptionFor s sc = Some {| transcription_text := "" |} ->
    let st1 := handleTranscription s r sc st in
    messages st1 = messages st /\
    pendingText s st1 = "" /\
    slotId s st1 = slotId s st /\
    forall (c : Closure) (sc' : ServerContent) (st2 : State),
      pendingText s st2 = "" -> turnComplete sc' = true ->
      let st3 := handleTurnComplete c sc' st2 in
      bySpeaker s (finalsOfTurn st2) = [] /\
      messages st3 = messages st2 ++ finalsOfTurn st2 /\
      (forall msg, In msg (messages st2) -> In msg (messages st3)).
Proof.
  intros s r sc st Hs Htr st1. subst st1.
  assert (Hstep : messages (handleTranscription s r sc st) = messages st /\
                  pendingText s (handleTranscription s r sc st) = "" /\
                  slotId s (handleTranscription s r sc st) = slotId s st).
  { destruct s; try congruence; cbn in Htr; cbn;
      destruct st; unfold_blocks; unfold_setters; rewrite Htr; cbn; repeat split. }
  destruct Hstep as (Hm & Hp & Hi). repeat split; try assumption.
  - rewrite bySpeaker_finals by assumption. unfold finalOf.
    match goal with H : pendingText s st2 = "" |- _ => rewrite H end. reflexivity.
  - now apply turnComplete_messages.
  - intros msg Hin. rewrite turnComplete_messages by assumption.
    apply in_or_app. now left.
Qed.

(** Witness of C9: the user said [Hello], then an empty transcription
    arrives, then the turn ends; the partial [Hello] is all there is. *)
Lemma empty_text_resets_pending_witness :
  USER <> SYSTEM /\
  transcriptionFor USER (heard "") = Some {| transcription_text := "" |} /\
  messages (handleTurnComplete (render active) turnDone
              (handleTranscription USER (at_ 9 0 0) (heard "")
                 (handleTranscription USER (at_ 8 0 0) (heard "Hello") active)))
  = [mkMsg "user-8" USER "Hello" true].
Proof.
  split; [discriminate|]. split; [reflexivity|].
  pose proof (empty_text_resets_pending USER (at_ 9 0 0) (heard "")
                (handleTranscription USER (at_ 8 0 0) (heard "Hello") active)
                ltac:(discriminate) eq_refl) as H.
  cbv zeta in H. destruct H as (_ & _ & _ & H).
  destruct (H (render active) turnDone
              (handleTranscription USER (at_ 9 0 0) (heard "")
                 (handleTranscription USER (at_ 8 0 0) (heard "Hello") active))
              eq_refl eq_refl) as (_ & Hm & _).
  rewrite Hm. reflexivity.
Defined.

(** ** Interruption *)

Lemma interrupted_block (sc : ServerContent) :
  interrupted sc = true ->
  forall st,
    effects (handleInterrupted sc st)
      = effects st ++ map SourceStop (outputAudioSourcesRef st) /\
    outputAudioSourcesRef (handleInterrupted sc st) = [] /\
    nextStartTimeRef (handleInterrupted sc st) = 0 /\
    messages (handleInterrupted sc st)
      = filter (fun msg => negb (isPartial msg)) (messages st).
Proof.
  intros H st. destruct st; unfold_blocks; unfold_setters.
  rewrite H. cbn. repeat split.
Qed.


(** What the interrupted block does do, in any state: it stops every live
    source, empties the live set, resets the cursor and filters the partial
    messages out of the transcript. *)
Lemma interrupted_flushes (sc : ServerContent) (st : State) :
  interrupted sc = true ->
  let st' := handleInterrupted sc st in
  effects st' = effects st ++ map SourceStop (outputAudioSourcesRef st) /\
  (forall source, In source (outputAudioSourcesRef st) ->
                  In (SourceStop source) (effects st')) /\
  outputAudioSourcesRef st' = [] /\
  nextStartTimeRef st' = 0 /\
  (forall msg, In msg (messages st') <-> In msg (messages st) /\ isPartial msg = false).
Proof.
  intros H st'. subst st'.
  destruct (interrupted_block sc H st) as (He & Hs & Hn & Hm).
  split; [exact He|]. split.
  { intros source Hin. rewrite He. apply in_or_app. right. now apply in_map. }
  split; [exact Hs|]. split; [exact Hn|].
  intros msg. rewrite Hm, filter_In. rewrite negb_true_iff. reflexivity.
Qed.

(** C4.  The agent has said [Hello] when an interruption arrives, and the
    turn then completes.  The interrupted block removes the partial from the
    transcript but leaves the agent's pending text and message id in their
    refs, so the open partial is not discarded: the turn-complete emits its
    finalized version, under the id of the partial.  The stop routine, which
    clears the partial messages in the same way, does reset the refs, and
    after it a turn-complete emits nothing. *)
Theorem interrupted_partial_is_finalized :
  let c := render active in
  let st := play [inbound c (at_ 7 0 0) (spoken "Hello")] active in
  let st1 := play [inbound c (at_ 8 0 0) bargeIn] st in
  let st2 := play [inbound c (at_ 9 0 0) turnDone] st1 in
  messages st = [mkMsg "model-7" MODEL "Hello" true] /\
  messages st1 = [] /\
  pendingText MODEL st1 = "Hello" /\ slotId MODEL st1 = "model-7" /\
  messages st2 = [mkMsg "model-7" MODEL "Hello" false] /\
  let stopped := stopInterview c 8 8 st in
  pendingText MODEL stopped = "" /\ slotId MODEL stopped = "" /\
  messages (play [inbound c (at_ 9 0 0) turnDone] stopped) = [].
Proof. cbv zeta. repeat split. Qed.

(** ** Remote close *)

(** C10. A close event whose handler saw the session as not recording
    changes nothing at all; the handler changes the state only when it saw
    the session as recording, and then it runs the stop routine. *)
Theorem handleClose_not_recording :
  forall (c : Closure) (now_id now_ts : N) (st : State),
    (cl_isRecording c = false -> handleClose c now_id now_ts st = st) /\
    (handleClose c now_id now_ts st <> st -> cl_isRecording c = true) /\
    (cl_isRecording c = true ->
     handleClose c now_id now_ts st
     = stopInterview c now_id now_ts
         (set_statusMessage "Interview ended due to connection loss. Please restart." st)).
Proof.
  intros c now_id now_ts st. unfold handleClose.
  destruct (cl_isRecording c); repeat split; intros; congruence.
Qed.

(** Witness of C10: a close event during connection setup. *)
Lemma handleClose_not_recording_witness :
  cl_isRecording (render connecting) = false /\
  handleClose (render connecting) 1 1 connecting = connecting.
Proof.
  split; [reflexivity|].
  apply (handleClose_not_recording (render connecting) 1 1 connecting). reflexivity.
Defined.

(** ** Comparisons of binary64 numbers

    The order of the comparisons [<?], [<=?] and [=?], read on the
    specification of the format: it is total on numbers, and [NaN] compares
    with nothing. *)

Lemma SFcompare_swap (x y : spec_float) :
  SFcompare y x = option_map CompOpp (SFcompare x y).
Proof.
  destruct x as [sx|sx| |sx mx ex], y as [sy|sy| |sy my ey]; cbn;
    try reflexivity; try (destruct sx; try destruct sy; reflexivity);
    try (destruct sy; reflexivity).
  change (Pos.compare_cont Eq) with Pos.compare.
  destruct sx, sy; cbn; try reflexivity;
    rewrite (Z.compare_antisym ex ey), (Pos.compare_antisym mx my);
    destruct (Z.compare ex ey); cbn; try reflexivity;
    destruct (Pos.compare mx my); reflexivity.
Qed.

Lemma SFcompare_refl (x : spec_float) :
  SFcompare x x = match x with S754_nan => None | _ => Some Eq end.
Proof.
  destruct x as [s|s| |s m e]; cbn; try reflexivity.
  - destruct s; reflexivity.
  - change (Pos.compare_cont Eq m m) with (Pos.compare m m).
    rewrite Z.compare_refl, Pos.compare_refl. destruct s; reflexivity.
Qed.

Lemma SFcompare_trans (x y z : spec_float) :
  notGt (SFcompare x y) = true -> notGt (SFcompare y z) = true ->
  notGt (SFcompare x z) = true /\
  (SFcompare x y = Some Eq -> SFcompare y z = Some Eq -> SFcompare x z = Some Eq).
Proof.
  destruct x as [sx|sx| |sx mx ex], y as [sy|sy| |sy my ey], z as [sz|sz| |sz mz ez];
    cbn; try discriminate; try (intros; split; [reflexivity|auto]; fail);
    try (destruct sx; try destruct sy; try destruct sz; cbn; intros; try discriminate;
         split; auto; try discriminate; fail).
  all: try (destruct sx, sy, sz; cbn; intros; try discriminate; split; auto; try discriminate; fail).
  all: change (Pos.compare_cont Eq) with Pos.compare.
  all: destruct sx, sy, sz; cbn; try discriminate; try (intros; split; [reflexivity|discriminate]).
  all: destruct (Z.compare_spec ex ey), (Z.compare_spec ey ez), (Z.compare_spec ex ez);
       try lia; cbn; try discriminate; intros; try (split; [reflexivity|discriminate]);
       subst.
  all: destruct (Pos.compare_spec mx my), (Pos.compare_spec my mz), (Pos.compare_spec mx mz);
       try lia; cbn in *; try discriminate; try (split; [reflexivity|auto]; intros; discriminate).
  all: try (split; [reflexivity|auto]).
Qed.

(** Comparisons of doubles, read on their specification. *)
Lemma compare_reads (a b : float) :
  (a <=? b)%float = notGt (SFcompare (Prim2SF a) (Prim2SF b)) /\
  (a <? b)%float = (match SFcompare (Prim2SF a) (Prim2SF b) with
                    | Some Lt => true | _ => false end) /\
  (a =? b)%float = (match SFcompare (Prim2SF a) (Prim2SF b) with
                    | Some Eq => true | _ => false end).
Proof.
  rewrite leb_spec, ltb_spec, eqb_spec. unfold SFleb, SFltb, SFeqb, notGt.
  destruct (SFcompare (Prim2SF a) (Prim2SF b)) as [[| |]|]; auto.
Qed.

Lemma is_nan_reads (a : float) :
  is_nan a = match Prim2SF a with S754_nan => true | _ => false end.
Proof.
  unfold is_nan. destruct (compare_reads a a) as (_ & _ & ->).
  rewrite SFcompare_refl. now destruct (Prim2SF a).
Qed.

Lemma SFcompare_defined (x y : spec_float) :
  SFcompare x y = None <-> x = S754_nan \/ y = S754_nan.
Proof.
  destruct x as [sx|sx| |sx mx ex], y as [sy|sy| |sy my ey]; cbn;
    split; intros H; auto; try discriminate; destruct H; discriminate.
Qed.

Lemma leb_numbers (a b : float) :
  (a <=? b)%float = true -> is_nan a = false /\ is_nan b = false.
Proof.
  destruct (compare_reads a b) as (-> & _). rewrite !is_nan_reads.
  destruct (Prim2SF a), (Prim2SF b); cbn; auto; discriminate.
Qed.

Lemma ltb_leb (a b : float) : (a <? b)%float = true -> (a <=? b)%float = true.
Proof.
  destruct (compare_reads a b) as (-> & -> & _).
  now destruct (SFcompare (Prim2SF a) (Prim2SF b)) as [[| |]|].
Qed.

Lemma leb_refl (a : float) : is_nan a = false -> (a <=? a)%float = true.
Proof.
  destruct (compare_reads a a) as (-> & _). rewrite is_nan_reads, SFcompare_refl.
  now destruct (Prim2SF a).
Qed.

Lemma eqb_refl (a : float) : is_nan a = false -> (a =? a)%float = true.
Proof. unfold is_nan. now intros H%negb_false_iff. Qed.

(** Of two numbers, one is less than the other or the other is not greater. *)
Lemma leb_total (a b : float) :
  is_nan a = false -> is_nan b = false ->
  (a <? b)%float = false -> (b <=? a)%float = true.
Proof.
  destruct (compare_reads a b) as (_ & -> & _). destruct (compare_reads b a) as (-> & _).
  rewrite !is_nan_reads, (SFcompare_swap (Prim2SF a) (Prim2SF b)).
  destruct (SFcompare (Prim2SF a) (Prim2SF b)) as [[| |]|] eqn:E; cbn; auto.
  apply SFcompare_defined in E. destruct E as [-> | ->]; discriminate.
Qed.

Lemma leb_not_ltb (a b : float) : (b <=? a)%float = true -> (a <? b)%float = false.
Proof.
  destruct (compare_reads a b) as (_ & -> & _). destruct (compare_reads b a) as (-> & _).
  rewrite (SFcompare_swap (Prim2SF a) (Prim2SF b)).
  now destruct (SFcompare (Prim2SF a) (Prim2SF b)) as [[| |]|].
Qed.

Lemma leb_trans (a b c : float) :
  (a <=? b)%float = true -> (b <=? c)%float = true -> (a <=? c)%float = true.
Proof.
  destruct (compare_reads a b) as (-> & _). destruct (compare_reads b c) as (-> & _).
  destruct (compare_reads a c) as (-> & _). intros H1 H2.
  now apply (SFcompare_trans _ _ _ H1 H2).
Qed.

(** Two zeros are equal as numbers, whatever their signs. *)
Lemma zeros_eqb (a b : float) :
  is_zero a = true -> is_zero b = true ->
  (b =? a)%float = true /\ (a <=? b)%float = true.
Proof.
  unfold is_zero. destruct (compare_reads a zero) as (_ & _ & ->).
  destruct (compare_reads b zero) as (_ & _ & ->).
  destruct (compare_reads b a) as (_ & _ & ->). destruct (compare_reads a b) as (-> & _).
  generalize (Prim2SF zero) (Prim2SF a) (Prim2SF b). intros z x y.
  pose proof (SFcompare_swap x z) as Hs.
  destruct (SFcompare x z) as [[| |]|] eqn:Ea; try discriminate.
  destruct (SFcompare y z) as [[| |]|] eqn:Eb; try discriminate.
  intros _ _. cbn in Hs.
  assert (Hb : notGt (SFcompare y z) = true) by now rewrite Eb.
  assert (Ha : notGt (SFcompare z x) = true) by now rewrite Hs.
  destruct (SFcompare_trans _ _ _ Hb Ha) as (_ & He).
  pose proof (SFcompare_swap y x) as Hxy. rewrite (He Eb Hs) in Hxy |- *.
  rewrite Hxy. auto.
Qed.

Lemma Math_max_numbers (a b : float) :
  is_nan (Math_max a b) = false -> is_nan a = false /\ is_nan b = false.
Proof.
  unfold Math_max. destruct (is_nan a || is_nan b) eqn:E.
  - discriminate.
  - now apply orb_false_elim in E.
Qed.

Lemma Math_max_l (a b : float) :
  is_nan (Math_max a b) = false -> (a <=? Math_max a b)%float = true.
Proof.
  intros H. destruct (Math_max_numbers a b H) as (Ha & Hb).
  unfold Math_max. rewrite Ha, Hb. cbn [orb].
  destruct (a <? b)%float eqn:E; [now apply ltb_leb|].
  destruct (is_zero a) eqn:Za; destruct (is_zero b) eqn:Zb; cbn [andb];
    try now apply leb_refl.
  destruct (get_sign a); [|now apply leb_refl].
  now apply zeros_eqb.
Qed.

Lemma Math_max_r (a b : float) :
  is_nan (Math_max a b) = false -> (b <=? Math_max a b)%float = true.
Proof.
  intros H. destruct (Math_max_numbers a b H) as (Ha & Hb).
  unfold Math_max. rewrite Ha, Hb. cbn [orb].
  destruct (a <? b)%float eqn:E; [now apply leb_refl|].
  destruct (is_zero a && is_zero b && get_sign a); [now apply leb_refl|].
  now apply leb_total.
Qed.

Lemma Math_max_on_time (a b : float) :
  (b <=? a)%float = true -> (Math_max a b =? a)%float = true.
Proof.
  intros H. destruct (leb_numbers b a H) as (Hb & Ha).
  unfold Math_max. rewrite Ha, Hb, (leb_not_ltb a b H). cbn [orb].
  destruct (is_zero a) eqn:Za; destruct (is_zero b) eqn:Zb; cbn [andb];
    try now apply eqb_refl.
  destruct (get_sign a); [|now apply eqb_refl].
  now apply zeros_eqb.
Qed.

Lemma ltb_numbers (a b : float) :
  (a <? b)%float = true -> is_nan a = false /\ is_nan b = false.
Proof. intros H. apply leb_numbers. now apply ltb_leb. Qed.

Lemma Math_max_late (a b : float) : (a <? b)%float = true -> Math_max a b = b.
Proof.
  intros H. destruct (ltb_numbers a b H) as (Ha & Hb).
  unfold Math_max. now rewrite Ha, Hb, H.
Qed.

(** ** Playback schedule *)

Lemma plan_app (chunks more : list Chunk) :
  forall cursor,
    plan cursor (chunks ++ more)
    = plan cursor chunks ++ plan (cursorAfter cursor chunks) more.
Proof.
  induction chunks as [|[now [d|]] chunks IH]; intros cursor; cbn.
  - reflexivity.
  - now rewrite IH.
  - now rewrite IH.
Qed.

Lemma cursorAfter_app (chunks more : list Chunk) :
  forall cursor,
    cursorAfter cursor (chunks ++ more)
    = cursorAfter (cursorAfter cursor chunks) more.
Proof.
  induction chunks as [|[now [d|]] chunks IH]; intros cursor; cbn.
  - reflexivity.
  - now rewrite IH.
  - now rewrite IH.
Qed.

Lemma started_app (l l' : list Effect) : started (l ++ l') = started l ++ started l'.
Proof. unfold started. apply flat_map_app. Qed.

(** The audio block of a message that carries audio, seen by the scheduler
    of a session that has an output context. *)
Lemma audio_schedule (r : Reading) (sc : ServerContent) (st : State) (ctx : nat) :
  outputAudioContextRef st = Some ctx ->
  hasAudio sc = true ->
  let st' := stateOf (handleAudio r sc st) in
  started (effects st')
  = started (effects st)
    ++ plan (nextStartTimeRef st) [(currentTime r, decodedDuration r)] /\
  nextStartTimeRef st'
  = cursorAfter (nextStartTimeRef st) [(currentTime r, decodedDuration r)].
Proof.
  intros Hctx Haudio. unfold hasAudio in Haudio. unfold handleAudio.
  destruct (base64EncodedAudioString sc) as [|base64|]; try discriminate.
  rewrite Hctx, Haudio.
  destruct st; unfold_setters; cbn.
  destruct (decodedDuration r) as [duration|]; cbn.
  - rewrite started_app. cbn. auto.
  - now rewrite app_nil_r.
Qed.

Lemma audio_absent (r : Reading) (sc : ServerContent) (st : State) :
  hasAudio sc = false -> stateOf (handleAudio r sc st) = st.
Proof.
  intros Haudio. unfold hasAudio in Haudio. unfold handleAudio.
  destruct (base64EncodedAudioString sc) as [|base64|]; try reflexivity.
  rewrite Haudio. now destruct (outputAudioContextRef st).
Qed.

(** One inbound message without the interrupted flag, seen by the scheduler. *)
Lemma deliver_schedule (i : Inbound) (st : State) (ctx : nat) :
  outputAudioContextRef st = Some ctx ->
  interruptedIn i = false ->
  outputAudioContextRef (deliver i st) = Some ctx /\
  started (effects (deliver i st))
  = started (effects st) ++ plan (nextStartTimeRef st) (chunkOf i) /\
  nextStartTimeRef (deliver i st) = cursorAfter (nextStartTimeRef st) (chunkOf i).
Proof.
  intros Hctx Hint. unfold interruptedIn, chunkOf in *.
  destruct (serverContent (in_message i)) as [sc|] eqn:Hsc.
  2:{ unfold deliver, handleMessage. rewrite Hsc. cbn. rewrite app_nil_r. auto. }
  rewrite (deliver_runs i sc st Hsc). cbv zeta.
  set (r := in_reading i). set (c := in_closure i).
  destruct (input_scheduler r sc st) as (E1 & _ & N1 & _ & C1).
  set (st1 := handleInputTranscription r sc st) in *.
  destruct (output_scheduler r sc st1) as (E2 & _ & N2 & _ & C2).
  set (st2 := handleOutputTranscription r sc st1) in *.
  assert (Hc2 : outputAudioContextRef st2 = Some ctx) by congruence.
  assert (He2 : effects st2 = effects st) by congruence.
  assert (Hn2 : nextStartTimeRef st2 = nextStartTimeRef st) by congruence.
  pose proof (audio_context r sc st2) as C3.
  assert (H3 : started (effects (stateOf (handleAudio r sc st2)))
               = started (effects st)
                 ++ plan (nextStartTimeRef st)
                      (if hasAudio sc then [(currentTime r, decodedDuration r)] else []) /\
               nextStartTimeRef (stateOf (handleAudio r sc st2))
               = cursorAfter (nextStartTimeRef st)
                   (if hasAudio sc then [(currentTime r, decodedDuration r)] else [])).
  { destruct (hasAudio sc) eqn:Haudio.
    - destruct (audio_schedule r sc st2 ctx Hc2 Haudio) as (E3 & N3).
      now rewrite E3, N3, He2, Hn2.
    - rewrite (audio_absent r sc st2 Haudio), He2, Hn2. cbn.
      now rewrite app_nil_r. }
  set (st3 := stateOf (handleAudio r sc st2)) in *.
  destruct (audioThrows r sc st2).
  - split; [congruence|exact H3].
  - destruct (turnComplete_scheduler c sc st3) as (E4 & _ & N4 & _ & C4).
    set (st4 := handleTurnComplete c sc st3) in *.
    assert (H5 : handleInterrupted sc st4 = st4).
    { unfold handleInterrupted. now rewrite Hint. }
    rewrite H5, E4, N4, C4, C3. split; [assumption|exact H3].
Qed.

(** Playback-ended notifications and capture frames leave the scheduler's
    cursor, the started handles and the output context alone. *)
Lemma ended_schedule (c : Closure) (source : nat) (st : State) :
  outputAudioContextRef (sourceEnded c source st) = outputAudioContextRef st /\
  effects (sourceEnded c source st) = effects st /\
  nextStartTimeRef (sourceEnded c source st) = nextStartTimeRef st.
Proof.
  destruct st; unfold sourceEnded; unfold_setters; cbn.
  split_test; cbn; auto.
Qed.

Lemma captured_schedule (inputData : list Z) (st : State) :
  outputAudioContextRef (onaudioprocess inputData st) = outputAudioContextRef st /\
  effects (onaudioprocess inputData st) = effects st /\
  nextStartTimeRef (onaudioprocess inputData st) = nextStartTimeRef st.
Proof.
  destruct st; unfold onaudioprocess, onPromise; cbn.
  split_test; cbn; auto.
Qed.

Lemma step_schedule (e : Event) (st : State) (ctx : nat) :
  outputAudioContextRef st = Some ctx ->
  interrupts e = false ->
  outputAudioContextRef (step e st) = Some ctx /\
  started (effects (step e st))
  = started (effects st) ++ plan (nextStartTimeRef st) (enqueued [e]) /\
  nextStartTimeRef (step e st) = cursorAfter (nextStartTimeRef st) (enqueued [e]).
Proof.
  intros Hctx Hint. destruct e as [i|c source|inputData]; cbn [step enqueued flat_map].
  - rewrite app_nil_r. now apply deliver_schedule.
  - destruct (ended_schedule c source st) as (-> & -> & ->).
    cbn. rewrite app_nil_r. auto.
  - destruct (captured_schedule inputData st) as (-> & -> & ->).
    cbn. rewrite app_nil_r. auto.
Qed.

Lemma enqueued_cons (e : Event) (events : list Event) :
  enqueued (e :: events) = enqueued [e] ++ enqueued events.
Proof. unfold enqueued. cbn. now rewrite app_nil_r. Qed.

Lemma play_schedule (events : list Event) :
  forall (st : State) (ctx : nat),
    outputAudioContextRef st = Some ctx ->
    forallb (fun e => negb (interrupts e)) events = true ->
    started (effects (play events st))
    = started (effects st) ++ plan (nextStartTimeRef st) (enqueued events) /\
    nextStartTimeRef (play events st)
    = cursorAfter (nextStartTimeRef st) (enqueued events).
Proof.
  induction events as [|e events IH]; intros st ctx Hctx Hall.
  - cbn. rewrite app_nil_r. auto.
  - cbn in Hall. apply andb_true_iff in Hall as [He Hall].
    apply negb_true_iff in He.
    destruct (step_schedule e st ctx Hctx He) as (Hctx' & Hs & Hn).
    destruct (IH (step e st) ctx Hctx' Hall) as (Hs' & Hn').
    change (play (e :: events) st) with (play events (step e st)).
    rewrite (enqueued_cons e events).
    rewrite Hs', Hn', Hs, Hn, plan_app, cursorAfter_app, app_assoc. auto.
Qed.

(** C1, as amended.  While no interruption intervenes (inbound messages
    without the interrupted flag, playback-ended notifications and capture
    frames may), every message that carries audio first moves the cursor to
    [Math.max] of the cursor and the output clock, the clock being read when
    the audio block is entered, before the chunk is decoded; if the chunk
    decodes it is started at that cursor and the cursor moves on by the
    chunk's duration, a binary64 addition; if the decoder throws nothing is
    started and the cursor stays where the maximum put it ([plan] and
    [cursorAfter] spell that rule out).  Consequently, of two chunks enqueued
    one right after the other, the second starts at [Math.max] of the first
    one's start plus duration and its own clock reading.  When that is a
    number, it is not below the first one's start plus duration (no overlap);
    it equals it whenever the clock reading is not above it (gapless); it is
    the clock reading, after a gap, whenever that is above it; and it is not
    below the first one's start provided adding the first one's duration did
    not lower the cursor. *)
Theorem schedule_follows_cursor :
  forall (events : list Event) (st : State) (ctx : nat),
    outputAudioContextRef st = Some ctx ->
    forallb (fun e => negb (interrupts e)) events = true ->
    let chunks := enqueued events in
    let handles := plan (nextStartTimeRef st) chunks in
    started (effects (play events st)) = started (effects st) ++ handles /\
    nextStartTimeRef (play events st) = cursorAfter (nextStartTimeRef st) chunks /\
    forall (before after : list Chunk) (now1 d1 now2 d2 : float),
      chunks = before ++ (now1, Some d1) :: (now2, Some d2) :: after ->
      let start1 := Math_max (cursorAfter (nextStartTimeRef st) before) now1 in
      let start2 := Math_max (start1 + d1) now2 in
      handles
      = plan (nextStartTimeRef st) before
        ++ (start1, d1) :: (start2, d2) :: plan (start2 + d2) after /\
      (is_nan start2 = false ->
       (start1 + d1 <=? start2)%float = true /\
       ((now2 <=? start1 + d1)%float = true -> (start2 =? start1 + d1)%float = true) /\
       ((start1 + d1 <? now2)%float = true -> start2 = now2) /\
       ((start1 <=? start1 + d1)%float = true -> (start1 <=? start2)%float = true)).
Proof.
  intros events st ctx Hctx Hall chunks handles. subst chunks handles.
  destruct (play_schedule events st ctx Hctx Hall) as (He & Hn).
  split; [exact He|]. split; [exact Hn|].
  intros before after now1 d1 now2 d2 Hchunks start1 start2.
  split.
  { rewrite Hchunks, plan_app. reflexivity. }
  intros Hnumber. subst start2.
  pose proof (Math_max_l (start1 + d1) now2 Hnumber) as Hl.
  split; [exact Hl|]. split; [|split].
  - apply Math_max_on_time.
  - apply Math_max_late.
  - intros Hd. eapply leb_trans; eassumption.
Qed.

(** Witness of C1: chunks of 1 s and 0.5 s enqueued with the clock at 0 are
    scheduled at 0 and at 1. *)
Lemma schedule_follows_cursor_witness :
  let events := [inbound (render active) (at_ 1 0 1) (chunk "AAAA");
                 inbound (render active) (at_ 2 0 0.5) (chunk "BBBB")] in
  outputAudioContextRef active = Some 3%nat /\
  forallb (fun e => negb (interrupts e)) events = true /\
  enqueued events = [] ++ [(0, Some 1); (0, Some 0.5)] /\
  is_nan (Math_max (Math_max 0 0 + 1) 0) = false /\
  (0 <=? Math_max 0 0 + 1)%float = true /\
  started (effects (play events active)) = [(0, 1); (1, 0.5)] /\
  nextStartTimeRef (play events active) = 1.5 /\
  (Math_max (Math_max 0 0 + 1) 0 =? Math_max 0 0 + 1)%float = true.
Proof.
  cbv zeta. split; [reflexivity|]. split; [reflexivity|]. split; [reflexivity|].
  split; [reflexivity|]. split; [reflexivity|].
  destruct (schedule_follows_cursor
              [inbound (render active) (at_ 1 0 1) (chunk "AAAA");
               inbound (render active) (at_ 2 0 0.5) (chunk "BBBB")]
              active 3 eq_refl eq_refl) as (He & Hn & Hadjacent).
  split; [rewrite He; reflexivity|]. split; [rewrite Hn; reflexivity|].
  destruct (Hadjacent [] [] 0 1 0 0.5 eq_refl) as (_ & Horder).
  destruct (Horder eq_refl) as (_ & Hgapless & _).
  exact (Hgapless eq_refl).
Defined.

(** Counterexample to C1 as stated: without any interruption, a chunk that
    is enqueued after the previous one has finished playing starts at the
    clock reading, not at the previous start plus the previous duration. *)
Lemma late_chunk_leaves_gap :
  let events := [inbound (render active) (at_ 1 0 1) (chunk "AAAA");
                 Ended (render active) 5;
                 inbound (render active) (at_ 2 5 0.5) (chunk "BBBB")] in
  forallb (fun e => negb (interrupts e)) events = true /\
  started (effects (play events active)) = [(0, 1); (5, 0.5)] /\
  (5 =? 0 + 1)%float = false.
Proof. cbv zeta. repeat split. Qed.

(** ** Partial updates *)

Local Arguments addMessage_update : simpl never.

Lemma findIndex_assign {A : Type} (p : A -> bool) (v : A) (l : list A) :
  match findIndex p l with
  | Some i => assign l i v
  | None => l ++ [v]
  end = replaceFirst p v l.
Proof.
  induction l as [|x l IH]; cbn.
  - reflexivity.
  - destruct (p x); cbn.
    + reflexivity.
    + destruct (findIndex p l); cbn; now rewrite <- IH.
Qed.

Lemma addMessage_update_partial (m : ChatMessage) (l : list ChatMessage) :
  isPartial m = true -> truthy (id m) = true ->
  addMessage_update m l = replaceFirst (sameMessage m) m l.
Proof.
  intros Hp Hi. unfold addMessage_update. rewrite Hp, Hi. cbn.
  apply findIndex_assign.
Qed.

Section OneSpeaker.
Variable s : Speaker.

Lemma openPartials_cons (x : ChatMessage) (l : list ChatMessage) :
  openPartials s (x :: l)
  = if isOpen s x then x :: openPartials s l else openPartials s l.
Proof. reflexivity. Qed.

Lemma openPartials_holds (P : ChatMessage) (l : list ChatMessage) :
  openPartials s l = [P] -> isOpen s P = true.
Proof.
  intros Hl. assert (Hin : In P (openPartials s l)) by (rewrite Hl; now left).
  unfold openPartials in Hin. now apply filter_In in Hin.
Qed.

(** A partial of [s] put into a transcript that shows no partial of [s]. *)
Lemma replaceFirst_fresh (m : ChatMessage) (l : list ChatMessage) :
  isOpen s m = true ->
  openPartials s l = [] ->
  openPartials s (replaceFirst (sameMessage m) m l) = [m] /\
  find (sameMessage m) (replaceFirst (sameMessage m) m l) = Some m.
Proof.
  intros Hm.
  induction l as [|x l IH]; cbn [replaceFirst]; intros Hl.
  - rewrite openPartials_cons, Hm. cbn. rewrite sameMessage_refl. auto.
  - rewrite openPartials_cons in Hl.
    destruct (isOpen s x) eqn:Hx; [discriminate|].
    destruct (sameMessage m x) eqn:Hsame.
    + rewrite openPartials_cons, Hm, Hl. cbn. rewrite sameMessage_refl. auto.
    + rewrite openPartials_cons, Hx. cbn [find]. rewrite Hsame. now apply IH.
Qed.

(** The partial of [s] that the transcript shows, replaced by its update. *)
Lemma replaceFirst_tracked (P m : ChatMessage) (l : list ChatMessage) :
  id m = id P -> speaker m = speaker P ->
  isOpen s m = true ->
  openPartials s l = [P] ->
  find (sameMessage P) l = Some P ->
  openPartials s (replaceFirst (sameMessage m) m l) = [m] /\
  find (sameMessage m) (replaceFirst (sameMessage m) m l) = Some m.
Proof.
  intros Hid Hsp Hm.
  assert (Hsame : forall x, sameMessage m x = sameMessage P x).
  { intros x. unfold sameMessage. now rewrite Hid, Hsp. }
  induction l as [|x l IH]; cbn [replaceFirst find]; intros Hl Hfind.
  - discriminate.
  - rewrite Hsame. destruct (sameMessage P x) eqn:Hx.
    + injection Hfind as ->. pose proof (openPartials_holds _ _ Hl) as HP.
      rewrite openPartials_cons in *. rewrite HP in Hl. injection Hl as Hl.
      rewrite Hm, Hl. cbn [find]. rewrite sameMessage_refl. auto.
    + rewrite openPartials_cons in *. cbn [find]. rewrite Hsame, Hx.
      destruct (isOpen s x) eqn:Ho.
      * injection Hl as -> _. now rewrite sameMessage_refl in Hx.
      * now apply IH.
Qed.
End OneSpeaker.

Lemma utteranceId_truthy (s : Speaker) (r : Reading) (st : State) :
  s <> SYSTEM -> truthy (utteranceId s r st) = true.
Proof.
  intros Hs. unfold utteranceId. destruct (truthy (slotId s st)) eqn:E.
  - exact E.
  - destruct s; try congruence; reflexivity.
Qed.

Lemma textOf_present (s : Speaker) (sc : ServerContent) :
  truthy (textOf s sc) = true ->
  transcriptionFor s sc = Some {| transcription_text := textOf s sc |}.
Proof.
  unfold textOf. destruct (transcriptionFor s sc) as [[t]|]; cbn.
  - reflexivity.
  - discriminate.
Qed.

(** The transcription block of a speaker on a text that is not empty. *)
Lemma transcription_step (s : Speaker) (r : Reading) (sc : ServerContent) (st : State) :
  s <> SYSTEM ->
  truthy (textOf s sc) = true ->
  let st' := handleTranscription s r sc st in
  messages st'
  = addMessage_update (mkMsg (utteranceId s r st) s (textOf s sc) true) (messages st) /\
  slotId s st' = utteranceId s r st /\
  pendingText s st' = textOf s sc.
Proof.
  intros Hs Ht. pose proof (textOf_present s sc Ht) as Htr.
  unfold utteranceId.
  destruct s; try congruence; cbn in Htr |- *;
    destruct st; unfold_blocks; unfold_setters; cbn; rewrite Htr; cbn;
    rewrite Ht; cbn;
    match goal with |- context [negb (truthy ?x)] => destruct (truthy x) end;
    cbn; auto.
Qed.

Lemma first_update (s : Speaker) (r : Reading) (sc : ServerContent) (st : State) :
  s <> SYSTEM ->
  openPartials s (messages st) = [] ->
  truthy (textOf s sc) = true ->
  Tracking s (mkMsg (utteranceId s r st) s (textOf s sc) true)
           (handleTranscription s r sc st).
Proof.
  intros Hs Hnone Ht.
  destruct (transcription_step s r sc st Hs Ht) as (Hm & Hi & Hp).
  pose proof (utteranceId_truthy s r st Hs) as Hid.
  set (m := mkMsg (utteranceId s r st) s (textOf s sc) true) in *.
  assert (Hopen : isOpen s m = true) by (destruct s; reflexivity).
  rewrite addMessage_update_partial in Hm by (reflexivity || exact Hid).
  destruct (replaceFirst_fresh s m (messages st) Hopen Hnone) as (Ho & Hf).
  unfold Tracking. rewrite Hm, Hi, Hp. repeat split; assumption.
Qed.

Lemma next_update (s : Speaker) (P : ChatMessage) (r : Reading) (sc : ServerContent)
                  (st : State) :
  s <> SYSTEM ->
  Tracking s P st ->
  truthy (textOf s sc) = true ->
  Tracking s (mkMsg (id P) s (textOf s sc) true) (handleTranscription s r sc st).
Proof.
  intros Hs (Ho & Hf & Hslot & Hid & Hsp & Hpar & Htxt) Ht.
  destruct (transcription_step s r sc st Hs Ht) as (Hm & Hi & Hp).
  assert (Hu : utteranceId s r st = id P).
  { unfold utteranceId. now rewrite Hslot, Hid. }
  rewrite Hu in Hm, Hi.
  set (m := mkMsg (id P) s (textOf s sc) true) in *.
  assert (Hopen : isOpen s m = true) by (destruct s; reflexivity).
  rewrite addMessage_update_partial in Hm by (reflexivity || exact Hid).
  destruct (replaceFirst_tracked s P m (messages st) eq_refl (eq_sym Hsp) Hopen Ho Hf)
    as (Ho' & Hf').
  unfold Tracking. rewrite Hm, Hi, Hp. repeat split; assumption.
Qed.

Lemma tracked_updates (s : Speaker) (updates : list (Reading * ServerContent)) :
  forall (P : ChatMessage) (r : Reading) (sc : ServerContent) (st : State),
    s <> SYSTEM ->
    Tracking s P st ->
    forallb (fun u => truthy (textOf s (snd u))) (updates ++ [(r, sc)]) = true ->
    Tracking s (mkMsg (id P) s (textOf s sc) true)
             (applyPartials s (updates ++ [(r, sc)]) st).
Proof.
  induction updates as [|[r0 sc0] updates IH]; intros P r sc st Hs Htr Hall;
    cbn in Hall; apply andb_true_iff in Hall as [H0 Hall].
  - cbn. now apply next_update.
  - cbn [app applyPartials fold_left fst snd].
    apply (IH (mkMsg (id P) s (textOf s sc0) true) r sc
              (handleTranscription s r0 sc0 st) Hs).
    + now apply next_update.
    + exact Hall.
Qed.

(** C5, as amended.  Take a speaker whose transcript shows no partial
    message, and any sequence of transcription updates for that speaker whose
    texts are all non-empty.  After the last update of the sequence (hence
    after each update) the transcript shows exactly one partial of that
    speaker; its id is the one of the slot at the first update, which is the
    id allocated there when the slot was empty; its text is the text supplied
    last, and the slot holds the same id and text. *)
Theorem partial_updates_last_write_wins :
  forall (s : Speaker) (updates : list (Reading * ServerContent))
         (r : Reading) (sc : ServerContent) (st : State),
    s <> SYSTEM ->
    openPartials s (messages st) = [] ->
    forallb (fun u => truthy (textOf s (snd u))) (updates ++ [(r, sc)]) = true ->
    let st' := applyPartials s (updates ++ [(r, sc)]) st in
    let first := fst (hd (r, sc) updates) in
    openPartials s (messages st')
    = [mkMsg (utteranceId s first st) s (textOf s sc) true] /\
    slotId s st' = utteranceId s first st /\
    pendingText s st' = textOf s sc /\
    (slotId s st = "" ->
     utteranceId s first st = (idPrefix s ++ decimal (dateNowFor s first))%string).
Proof.
  intros s updates r sc st Hs Hnone Hall st' first. subst st' first.
  assert (Hfresh : slotId s st = "" ->
                   forall r0, utteranceId s r0 st
                              = (idPrefix s ++ decimal (dateNowFor s r0))%string).
  { intros E r0. unfold utteranceId. now rewrite E. }
  assert (Htrack : Tracking s (mkMsg (utteranceId s (fst (hd (r, sc) updates)) st) s
                                     (textOf s sc) true)
                            (applyPartials s (updates ++ [(r, sc)]) st)).
  { destruct updates as [|[r0 sc0] updates].
    - cbn in Hall |- *. apply andb_true_iff in Hall as [H0 _].
      now apply first_update.
    - cbn in Hall. apply andb_true_iff in Hall as [H0 Hall].
      cbn [app applyPartials fold_left fst snd hd].
      apply (tracked_updates s updates
               (mkMsg (utteranceId s r0 st) s (textOf s sc0) true) r sc
               (handleTranscription s r0 sc0 st) Hs).
      + now apply first_update.
      + exact Hall. }
  destruct Htrack as (Ho & _ & Hslot & _ & _ & _ & Htxt).
  split; [exact Ho|]. split; [exact Hslot|]. split; [exact Htxt|].
  intros E. now apply Hfresh.
Qed.

(** Witness of C5: [Hello] then [Hello there] from the agent. *)
Lemma partial_updates_last_write_wins_witness :
  let updates := [(at_ 7 0 0, spoken "Hello")] in
  MODEL <> SYSTEM /\
  openPartials MODEL (messages active) = [] /\
  forallb (fun u => truthy (textOf MODEL (snd u)))
          (updates ++ [(at_ 8 0 0, spoken "Hello there")]) = true /\
  openPartials MODEL
    (messages (applyPartials MODEL (updates ++ [(at_ 8 0 0, spoken "Hello there")]) active))
  = [mkMsg "model-7" MODEL "Hello there" true].
Proof.
  cbv zeta. split; [discriminate|]. split; [reflexivity|]. split; [reflexivity|].
  destruct (partial_updates_last_write_wins MODEL [(at_ 7 0 0, spoken "Hello")]
              (at_ 8 0 0) (spoken "Hello there") active
              ltac:(discriminate) eq_refl eq_refl) as (Ho & _).
  rewrite Ho. reflexivity.
Defined.

(** Counterexample to C5 as stated: an update with empty text leaves the
    partial on its previous text, and a first update with empty text leaves
    the speaker with no partial at all. *)
Lemma empty_update_is_not_shown :
  let st := applyPartials USER [(at_ 8 0 0, heard "Hello"); (at_ 9 0 0, heard "")]
                          active in
  openPartials USER (messages st) = [mkMsg "user-8" USER "Hello" true] /\
  textOf USER (heard "") = "" /\
  "Hello" <> textOf USER (heard "") /\
  openPartials USER (messages (applyPartials USER [(at_ 8 0 0, heard "")] active)) = [].
Proof.
  cbv zeta. split; [reflexivity|]. split; [reflexivity|]. split; [discriminate|].
  reflexivity.
Qed.

(** ** Finalization and the partial it finalizes *)

(** C6.  The agent says [Hello] and the turn ends: the finalized message is
    appended under the id of the partial and the partial stays, so the
    transcript holds a partial and a finalized message with the same id and
    speaker; when the agent speaks again the transcript shows two partial
    messages of the agent. *)
Theorem finalized_turn_keeps_partial :
  let c := render active in
  let st := play [inbound c (at_ 7 0 0) (spoken "Hello");
                 inbound c (at_ 8 0 0) turnDone] active in
  messages st = [mkMsg "model-7" MODEL "Hello" true;
                 mkMsg "model-7" MODEL "Hello" false] /\
  openPartials MODEL (messages (play [inbound c (at_ 9 0 0) (spoken "Hi")] st))
  = [mkMsg "model-7" MODEL "Hello" true; mkMsg "model-9" MODEL "Hi" true].
Proof. cbv zeta. split; reflexivity. Qed.

(** The same in general: finalizing the utterance a slot tracks leaves its
    partial in the transcript next to the finalized message. *)
Lemma finalization_appends (s : Speaker) (P : ChatMessage) (c : Closure)
                           (sc : ServerContent) (st : State) :
  s <> SYSTEM ->
  Tracking s P st ->
  truthy (text P) = true ->
  turnComplete sc = true ->
  In P (messages (handleTurnComplete c sc st)) /\
  In (mkMsg (id P) s (text P) false) (messages (handleTurnComplete c sc st)).
Proof.
  intros Hs (Ho & Hf & Hslot & Hid & Hsp & Hpar & Htxt) Ht Htc.
  rewrite (turnComplete_messages c sc st Htc). split.
  - apply in_or_app. left. apply find_some in Hf. tauto.
  - apply in_or_app. right.
    assert (Hfin : finalOf s st = [mkMsg (id P) s (text P) false]).
    { unfold finalOf. now rewrite Htxt, Ht, Hslot. }
    unfold finalsOfTurn. destruct s; try congruence; rewrite Hfin.
    + apply in_or_app. left. now left.
    + apply in_or_app. right. now left.
Qed.

(** ** Order of the fields of one message *)












(** The same happens to a message whose model turn carries no [parts]:
    reading [parts[0]] throws before the audio block is entered. *)
Lemma turn_without_parts_skips_the_flag :
  let c := render active in
  let st := play [inbound c (at_ 1 0 1) (chunk "AAAA")] active in
  let st' := play [inbound c (at_ 2 0 1) emptyTurnThenBargeIn] st in
  interrupted emptyTurnThenBargeIn = true /\
  outputAudioSourcesRef st' = [5%nat] /\
  effects st' = [SourceStart 5 0 1].
Proof. cbv zeta. repeat split. Qed.

(** ** Stopping *)

(** Decides the tests of the stop routine before running it: they read the
    transcript of the closure and cells that no earlier step of the routine
    writes. *)
Ltac run_stop c st :=
  destruct st as [? ? ? ? ? ? ? live stream inputCtx outputCtx node ? ? ? ? ? ? ? ? ?];
  cbv beta delta [stopInterview saveCurrentTranscript archiveUpdater];
  destruct (cl_messages c); destruct live, stream, inputCtx, outputCtx, node; cbn.

Lemma stop_leaves_idle (c : Closure) (now_id now_ts : N) (st : State) :
  Idle (stopInterview c now_id now_ts st).
Proof.
  unfold Idle. run_stop c st; repeat split; auto.
Qed.

Lemma stop_archive (c : Closure) (now_id now_ts : N) (st : State) :
  savedTranscripts (stopInterview c now_id now_ts st)
  = savedTranscripts st
    ++ (if (0 <? List.length (cl_messages c))%nat
        then [mkSaved ("transcript-" ++ decimal now_id) now_ts
                      (filter (fun msg => negb (isPartial msg)) (cl_messages c))]
        else []).
Proof.
  run_stop c st; rewrite ?app_nil_r; reflexivity.
Qed.

Lemma stop_when_idle (c : Closure) (now_id now_ts : N) (st : State) :
  Idle st ->
  cl_messages c = [] ->
  stopInterview c now_id now_ts st = set_statusMessage "Interview ended." st.
Proof.
  intros Hidle Hc. revert Hidle. unfold Idle.
  destruct st as [? ? ? ? ? ? ? live stream inputCtx outputCtx node ? ? ? ? ? ? ? ? ?].
  cbv beta delta [stopInterview saveCurrentTranscript archiveUpdater]. rewrite Hc.
  destruct live, stream, inputCtx, outputCtx, node; cbn;
    intros (-> & -> & -> & Hs & Hnode & -> & -> & Ho & Hl & -> & -> & -> & ->);
    try discriminate; try (destruct Hnode; discriminate);
    rewrite ?app_nil_r; reflexivity.
Qed.

(** C7, as amended.  Stopping a session that has nothing left to release
    changes the status message to [Interview ended.] and nothing else: no
    browser object is called, no promise is touched, no archive entry is
    written.  After any stop the session is in that condition and its
    transcript is empty, so a second stop that sees the emptied transcript
    adds no archive entry: two stops in a row write one entry when the first
    saw a transcript that was not empty, and none otherwise. *)
Theorem second_stop_only_sets_status :
  forall (c : Closure) (t1 t1' t2 t2' : N) (st : State),
    (Idle st ->
     stopInterview (render st) t2 t2' st = set_statusMessage "Interview ended." st) /\
    let st1 := stopInterview c t1 t1' st in
    let st2 := stopInterview (render st1) t2 t2' st1 in
    Idle st1 /\
    st2 = set_statusMessage "Interview ended." st1 /\
    savedTranscripts st2 = savedTranscripts st1 /\
    effects st2 = effects st1 /\
    promises st2 = promises st1 /\
    List.length (savedTranscripts st2)
    = (List.length (savedTranscripts st)
       + (if (0 <? List.length (cl_messages c))%nat then 1 else 0))%nat.
Proof.
  assert (Hstop : forall st0 t t', Idle st0 ->
            stopInterview (render st0) t t' st0
            = set_statusMessage "Interview ended." st0).
  { intros st0 t t' Hidle. apply stop_when_idle; [exact Hidle|].
    destruct Hidle as (_ & _ & Hm & _). exact Hm. }
  intros c t1 t1' t2 t2' st. split.
  - apply Hstop.
  - cbv zeta. pose proof (stop_leaves_idle c t1 t1' st) as Hidle.
    set (st1 := stopInterview c t1 t1' st) in *.
    pose proof (Hstop st1 t2 t2' Hidle) as H2.
    rewrite H2. split; [exact Hidle|]. split; [reflexivity|].
    assert (Hs : savedTranscripts (set_statusMessage "Interview ended." st1)
                 = savedTranscripts st1) by (destruct st1; reflexivity).
    split; [exact Hs|]. split; [destruct st1; reflexivity|].
    split; [destruct st1; reflexivity|].
    rewrite Hs. subst st1. rewrite stop_archive, length_app.
    destruct (0 <? List.length (cl_messages c))%nat; reflexivity.
Qed.

(** Witness of C7: the stop routine run on the state of the first render. *)
Lemma second_stop_only_sets_status_witness :
  Idle initial /\
  stopInterview (render initial) 2 2 initial
  = set_statusMessage "Interview ended." initial.
Proof.
  assert (H : Idle initial).
  { unfold Idle. cbn. repeat split; auto. }
  split; [exact H|].
  exact (proj1 (second_stop_only_sets_status (render initial) 1 1 2 2 initial) H).
Defined.

(** Counterexample to C7 as stated: after a turn has been finalized the
    session is stopped twice, each stop seeing the current transcript.  The
    second stop is not a no-op, it replaces the status message of the first. *)
Lemma second_stop_is_not_a_noop :
  let c := render active in
  let st := play [inbound c (at_ 7 0 0) (spoken "Hello");
                 inbound c (at_ 8 0 0) turnDone] active in
  let st1 := stopInterview (render st) 100 100 st in
  let st2 := stopInterview (render st1) 101 101 st1 in
  statusMessage st1 = "Interview ended and transcript saved!" /\
  statusMessage st2 = "Interview ended." /\
  st2 <> st1.
Proof.
  cbv zeta. split; [reflexivity|]. split; [reflexivity|].
  intros H. apply (f_equal statusMessage) in H. vm_compute in H. discriminate H.
Qed.

(** A stop that still sees the transcript of before the first stop, because
    no render came in between, writes a second archive entry. *)
Lemma stale_stop_saves_again :
  let c := render active in
  let st := play [inbound c (at_ 7 0 0) (spoken "Hello");
                 inbound c (at_ 8 0 0) turnDone] active in
  let st1 := stopInterview (render st) 100 100 st in
  let st2 := stopInterview (render st) 101 101 st1 in
  List.length (savedTranscripts st1) = 1%nat /\
  List.length (savedTranscripts st2) = 2%nat.
Proof. cbv zeta. split; reflexivity. Qed.

(** ** Capture frames and the session promise *)

Lemma nth_error_updateAt {A : Type} (f : A -> A) (l : list A) :
  forall i, nth_error (updateAt f i l) i = option_map f (nth_error l i).
Proof.
  induction l as [|x l IH]; intros [|i]; cbn; auto.
Qed.

Lemma onPromise_fields (f : Promise -> Promise) (p : nat) (st : State) :
  liveSessionRef (onPromise f p st) = liveSessionRef st /\
  promises (onPromise f p st) = updateAt f p (promises st) /\
  effects (onPromise f p st) = effects st /\
  messages (onPromise f p st) = messages st /\
  isRecording (onPromise f p st) = isRecording st.
Proof. destruct st; cbn; auto. Qed.

(** One frame captured while the promise of the current session is pending. *)
Lemma onaudioprocess_pending (inputData : list Z) (st : State) (p : nat)
                             (waitingFor : list Reaction) (made : list SessionCall) :
  liveSessionRef st = Some p ->
  nth_error (promises st) p = Some (mkPromise Pending waitingFor made) ->
  liveSessionRef (onaudioprocess inputData st) = Some p /\
  nth_error (promises (onaudioprocess inputData st)) p
  = Some (mkPromise Pending (waitingFor ++ [ThenSend (createBlob inputData)]) made).
Proof.
  intros Hlive Hcell. unfold onaudioprocess. rewrite Hlive.
  destruct (onPromise_fields (then_ (ThenSend (createBlob inputData))) p st)
    as (Hl & Hp & _).
  rewrite Hl, Hp, nth_error_updateAt, Hcell. auto.
Qed.

Lemma capture_pending (frames : list (list Z)) :
  forall (st : State) (p : nat) (waitingFor : list Reaction) (made : list SessionCall),
    liveSessionRef st = Some p ->
    nth_error (promises st) p = Some (mkPromise Pending waitingFor made) ->
    liveSessionRef (capture frames st) = Some p /\
    nth_error (promises (capture frames st)) p
    = Some (mkPromise Pending
              (waitingFor ++ map (fun f => ThenSend (createBlob f)) frames) made).
Proof.
  induction frames as [|f frames IH]; intros st p waitingFor made Hlive Hcell.
  - cbn. now rewrite app_nil_r.
  - destruct (onaudioprocess_pending f st p waitingFor made Hlive Hcell) as (Hl & Hc).
    destruct (IH _ _ _ _ Hl Hc) as (Hl' & Hc').
    change (capture (f :: frames) st) with (capture frames (onaudioprocess f st)).
    rewrite Hl', Hc'. cbn [map]. now rewrite <- app_assoc.
Qed.

Lemma capture_without_session (frames : list (list Z)) :
  forall st, liveSessionRef st = None -> capture frames st = st.
Proof.
  induction frames as [|f frames IH]; intros st Hlive.
  - reflexivity.
  - change (capture (f :: frames) st) with (capture frames (onaudioprocess f st)).
    unfold onaudioprocess. rewrite Hlive. now apply IH.
Qed.

Lemma settle_keeps_ref (f : Promise -> Promise) (p : nat) (st : State) :
  liveSessionRef (onPromise f p st) = liveSessionRef st /\
  nth_error (promises (onPromise f p st)) p = option_map f (nth_error (promises st) p).
Proof.
  destruct (onPromise_fields f p st) as (Hl & Hp & _).
  now rewrite Hl, Hp, nth_error_updateAt.
Qed.

Lemma capture_rejected (frames : list (list Z)) :
  forall (st : State) (p : nat) (waitingFor : list Reaction) (made : list SessionCall),
    liveSessionRef st = Some p ->
    nth_error (promises st) p = Some (mkPromise Rejected waitingFor made) ->
    liveSessionRef (capture frames st) = Some p /\
    nth_error (promises (capture frames st)) p
    = Some (mkPromise Rejected waitingFor made).
Proof.
  induction frames as [|f frames IH]; intros st p waitingFor made Hlive Hcell.
  - auto.
  - change (capture (f :: frames) st) with (capture frames (onaudioprocess f st)).
    destruct (settle_keeps_ref (then_ (ThenSend (createBlob f))) p st) as (Hl & Hc).
    apply IH; unfold onaudioprocess; rewrite Hlive.
    + now rewrite Hl.
    + now rewrite Hc, Hcell.
Qed.

(** C2, as amended.  A frame captured while the promise of the session is
    still pending is not sent at that moment: its send is registered on the
    promise behind the frames captured before it.  When the promise is
    fulfilled all the waiting frames are sent to the session, in capture
    order; when it is rejected they are discarded.  A frame captured after
    the promise was rejected is not sent either.  A frame captured when there
    is no session promise at all is dropped at once. *)
Theorem frames_wait_for_the_session :
  forall (frames : list (list Z)) (st : State),
    (forall (p : nat) (waitingFor : list Reaction) (made : list SessionCall),
       liveSessionRef st = Some p ->
       nth_error (promises st) p = Some (mkPromise Pending waitingFor made) ->
       let st' := capture frames st in
       sessionCalls p st' = made /\
       waiting p st' = waitingFor ++ map (fun f => ThenSend (createBlob f)) frames /\
       sessionCalls p (connectFulfilled p st')
       = made ++ map react waitingFor
              ++ map (fun f => sendRealtimeInput (createBlob f)) frames /\
       sessionCalls p (connectRejected p st') = made /\
       waiting p (connectRejected p st') = []) /\
    (forall (p : nat) (waitingFor : list Reaction) (made : list SessionCall),
       liveSessionRef st = Some p ->
       nth_error (promises st) p = Some (mkPromise Rejected waitingFor made) ->
       sessionCalls p (capture frames st) = made /\
       waiting p (capture frames st) = waitingFor) /\
    (liveSessionRef st = None -> capture frames st = st).
Proof.
  intros frames st. split; [|split].
  - intros p waitingFor made Hlive Hcell st'. subst st'.
    destruct (capture_pending frames st p waitingFor made Hlive Hcell) as (_ & Hc).
    destruct (settle_keeps_ref fulfil p (capture frames st)) as (_ & Hf).
    destruct (settle_keeps_ref reject p (capture frames st)) as (_ & Hr).
    rewrite Hc in Hf, Hr. cbn in Hf, Hr.
    unfold sessionCalls, waiting, connectFulfilled, connectRejected.
    rewrite Hc, Hf, Hr. cbn.
    split; [reflexivity|]. split; [reflexivity|]. split; [|auto].
    now rewrite map_app, map_map.
  - intros p waitingFor made Hlive Hcell.
    destruct (capture_rejected frames st p waitingFor made Hlive Hcell) as (_ & Hc).
    unfold sessionCalls, waiting. rewrite Hc. auto.
  - apply capture_without_session.
Qed.

(** Witness of C2: three frames captured during connection setup. *)
Lemma frames_wait_for_the_session_witness :
  liveSessionRef connecting = Some 0%nat /\
  nth_error (promises connecting) 0 = Some (mkPromise Pending [] []) /\
  sessionCalls 0 (capture [[1%Z]; [2%Z]; [3%Z]] connecting) = [] /\
  liveSessionRef (connectRejected 0 connecting) = Some 0%nat /\
  nth_error (promises (connectRejected 0 connecting)) 0 = Some (mkPromise Rejected [] []) /\
  sessionCalls 0 (capture [[1%Z]; [2%Z]; [3%Z]] (connectRejected 0 connecting)) = [] /\
  liveSessionRef initial = None /\
  capture [[1%Z]; [2%Z]; [3%Z]] initial = initial.
Proof.
  split; [reflexivity|]. split; [reflexivity|]. split.
  { exact (proj1 (proj1 (frames_wait_for_the_session [[1%Z]; [2%Z]; [3%Z]] connecting)
                    0%nat [] [] eq_refl eq_refl)). }
  split; [reflexivity|]. split; [reflexivity|]. split.
  { exact (proj1 (proj1 (proj2 (frames_wait_for_the_session [[1%Z]; [2%Z]; [3%Z]]
                                  (connectRejected 0 connecting)))
                    0%nat [] [] eq_refl eq_refl)). }
  split; [reflexivity|].
  exact (proj2 (proj2 (frames_wait_for_the_session [[1%Z]; [2%Z]; [3%Z]] initial))
           eq_refl).
Defined.

(** Counterexample to C2 as stated: three frames captured before the stream
    is open are kept on the session promise, and they are sent once the
    stream has opened and the promise is fulfilled. *)
Lemma early_frames_are_sent_later :
  let frames := [[1%Z]; [2%Z]; [3%Z]] in
  let st := capture frames connecting in
  isRecording st = false /\ isLoading st = true /\
  sessionCalls 0 st = [] /\
  waiting 0 st = [ThenSend (createBlob [1%Z]); ThenSend (createBlob [2%Z]);
                  ThenSend (createBlob [3%Z])] /\
  sessionCalls 0 (connectFulfilled 0 (onopen st))
  = [sendRealtimeInput (createBlob [1%Z]); sendRealtimeInput (createBlob [2%Z]);
     sendRealtimeInput (createBlob [3%Z])].
Proof. cbv zeta. repeat split. Qed.

(** * Further properties of the component *)

(** ** What message handling leaves alone *)

Lemma blocks_beyond (c : Closure) (r : Reading) (sc : ServerContent) (st : State) :
  beyondConversation (handleInputTranscription r sc st) = beyondConversation st /\
  beyondConversation (handleOutputTranscription r sc st) = beyondConversation st /\
  beyondConversation (stateOf (handleAudio r sc st)) = beyondConversation st /\
  beyondConversation (handleTurnComplete c sc st) = beyondConversation st /\
  beyondConversation (handleInterrupted sc st) = beyondConversation st.
Proof.
  repeat split; unfold beyondConversation; run_blocks st; reflexivity.
Qed.

Lemma deliver_beyond (i : Inbound) (st : State) :
  beyondConversation (deliver i st) = beyondConversation st.
Proof.
  destruct (serverContent (in_message i)) as [sc|] eqn:Hsc.
  2:{ unfold deliver, handleMessage. now rewrite Hsc. }
  rewrite (deliver_runs i sc st Hsc). cbv zeta.
  set (c := in_closure i). set (r := in_reading i).
  set (st1 := handleInputTranscription r sc st).
  set (st2 := handleOutputTranscription r sc st1).
  set (st3 := stateOf (handleAudio r sc st2)).
  assert (H3 : beyondConversation st3 = beyondConversation st).
  { subst st3 st2 st1.
    destruct (blocks_beyond c r sc
                (handleOutputTranscription r sc (handleInputTranscription r sc st)))
      as (_ & _ & -> & _ & _).
    destruct (blocks_beyond c r sc (handleInputTranscription r sc st))
      as (_ & -> & _ & _ & _).
    now destruct (blocks_beyond c r sc st) as (-> & _). }
  destruct (audioThrows r sc st2); [exact H3|].
  destruct (blocks_beyond c r sc (handleTurnComplete c sc st3)) as (_ & _ & _ & _ & ->).
  now destruct (blocks_beyond c r sc st3) as (_ & _ & _ & -> & _).
Qed.

Lemma ended_beyond (c : Closure) (source : nat) (st : State) :
  beyondConversation (sourceEnded c source st) = beyondConversation st /\
  messages (sourceEnded c source st) = messages st.
Proof.
  destruct st; unfold sourceEnded, beyondConversation; unfold_setters; cbn.
  split_test; cbn; auto.
Qed.

(** ** The scheduler, block by block *)

Lemma audio_summary (r : Reading) (sc : ServerContent) (st : State) :
  let st' := stateOf (handleAudio r sc st) in
  effects st'
  = effects st
    ++ match enqueues r sc st with
       | Some duration =>
           [SourceStart (nextObject st)
                        (Math_max (nextStartTimeRef st) (currentTime r)) duration]
       | None => []
       end /\
  outputAudioSourcesRef st'
  = outputAudioSourcesRef st
    ++ match enqueues r sc st with Some _ => [nextObject st] | None => [] end /\
  nextObject st'
  = match enqueues r sc st with Some _ => S (nextObject st) | None => nextObject st end /\
  (audioThrows r sc st = true -> enqueues r sc st = None).
Proof.
  unfold enqueues, entersAudio, hasAudio, audioThrows.
  run_blocks st; rewrite ?app_nil_r; repeat split; auto; discriminate.
Qed.

Lemma interrupted_summary (sc : ServerContent) (st : State) :
  effects (handleInterrupted sc st)
  = effects st
    ++ (if interrupted sc then map SourceStop (outputAudioSourcesRef st) else []) /\
  outputAudioSourcesRef (handleInterrupted sc st)
  = (if interrupted sc then [] else outputAudioSourcesRef st) /\
  nextObject (handleInterrupted sc st) = nextObject st /\
  nextStartTimeRef (handleInterrupted sc st)
  = (if interrupted sc then 0 else nextStartTimeRef st).
Proof.
  run_blocks st; rewrite ?app_nil_r; auto.
Qed.

(** One inbound message, seen by the scheduler: at most one source is
    started, then the live set is stopped if the message is flagged and the
    interrupted block is reached. *)
Lemma deliver_summary (i : Inbound) (sc : ServerContent) (st : State) :
  serverContent (in_message i) = Some sc ->
  let r := in_reading i in
  let begun := match enqueues r sc st with Some _ => [nextObject st] | None => [] end in
  effects (deliver i st)
  = effects st
    ++ match enqueues r sc st with
       | Some duration =>
           [SourceStart (nextObject st)
                        (Math_max (nextStartTimeRef st) (currentTime r)) duration]
       | None => []
       end
    ++ (if flushes r sc st
        then map SourceStop (outputAudioSourcesRef st ++ begun) else []) /\
  outputAudioSourcesRef (deliver i st)
  = (if flushes r sc st then [] else outputAudioSourcesRef st ++ begun) /\
  nextObject (deliver i st)
  = match enqueues r sc st with Some _ => S (nextObject st) | None => nextObject st end.
Proof.
  intros Hsc r begun. subst begun. rewrite (deliver_runs i sc st Hsc). cbv zeta.
  fold r. set (c := in_closure i).
  destruct (input_scheduler r sc st) as (E1 & S1 & N1 & O1 & C1).
  set (st1 := handleInputTranscription r sc st) in *.
  destruct (output_scheduler r sc st1) as (E2 & S2 & N2 & O2 & C2).
  set (st2 := handleOutputTranscription r sc st1) in *.
  assert (Hctx : outputAudioContextRef st2 = outputAudioContextRef st) by congruence.
  assert (Henq : enqueues r sc st2 = enqueues r sc st).
  { unfold enqueues, entersAudio. now rewrite Hctx. }
  unfold flushes. rewrite <- (audioThrows_context r sc st st2 Hctx).
  destruct (audio_summary r sc st2) as (E3 & S3 & O3 & T3).
  rewrite Henq in E3, S3, O3, T3.
  set (st3 := stateOf (handleAudio r sc st2)) in *.
  destruct (audioThrows r sc st2).
  - rewrite (T3 eq_refl) in *. rewrite andb_false_r.
    rewrite E3, S3, O3, E2, S2, O2, E1, S1, O1. rewrite !app_nil_r. auto.
  - rewrite andb_true_r.
    destruct (turnComplete_scheduler c sc st3) as (E4 & S4 & _ & O4 & _).
    set (st4 := handleTurnComplete c sc st3) in *.
    destruct (interrupted_summary sc st4) as (E5 & S5 & O5 & _).
    rewrite E5, S5, O5, E4, S4, O4, E3, S3, O3, E2, S2, N2, O2, E1, S1, N1, O1.
    rewrite <- app_assoc. auto.
Qed.

(** ** The stop routine, call by call *)

Lemma stop_summary (c : Closure) (now_id now_ts : N) (st : State) :
  effects (stopInterview c now_id now_ts st)
  = effects st ++ released c now_id now_ts st /\
  promises (stopInterview c now_id now_ts st)
  = match liveSessionRef st with
    | Some p => updateAt (then_ ThenClose) p (promises st)
    | None => promises st
    end /\
  nextObject (stopInterview c now_id now_ts st) = nextObject st /\
  showPastTranscripts (stopInterview c now_id now_ts st) = showPastTranscripts st /\
  selectedPastTranscript (stopInterview c now_id now_ts st)
  = selectedPastTranscript st /\
  (scriptProcessorRef st = None ->
   inputAudioContextRef (stopInterview c now_id now_ts st) = inputAudioContextRef st).
Proof.
  unfold released, heldStream, entryOf.
  destruct st as [? ? ? ? ? ? ? live stream inputCtx outputCtx node ? ? ? ? ? ? ? ? ?].
  cbv beta delta [stopInterview saveCurrentTranscript archiveUpdater].
  destruct (cl_messages c); destruct live, stream, inputCtx, outputCtx, node; cbn;
    rewrite <- ?app_assoc; cbn; rewrite ?app_nil_r; repeat split; congruence.
Qed.

(** The stop routine overwrites the flags and the status it finds: its
    result depends on the other cells only. *)
Lemma stop_reads (c : Closure) (now_id now_ts : N) (st st' : State) :
  beyondFlags st = beyondFlags st' ->
  stopInterview c now_id now_ts st = stopInterview c now_id now_ts st'.
Proof.
  destruct st, st'. unfold beyondFlags. cbn. intros H.
  injection H as -> -> -> -> -> -> -> -> -> -> -> -> -> -> -> -> -> ->.
  cbv beta delta [stopInterview saveCurrentTranscript archiveUpdater].
  destruct (cl_messages c); cbn; reflexivity.
Qed.

Lemma handleError_is_stop (c : Closure) (e_message : string) (now_id now_ts : N)
                          (st : State) :
  handleError c e_message now_id now_ts st = stopInterview c now_id now_ts st.
Proof. unfold handleError. apply stop_reads. destruct st; reflexivity. Qed.

Lemma failed_is_stop (c : Closure) (error_message : option string) (now_id now_ts : N)
                     (st : State) :
  startInterview_failed c error_message now_id now_ts st
  = stopInterview c now_id now_ts st.
Proof.
  unfold startInterview_failed. apply stop_reads.
  destruct error_message; destruct st; reflexivity.
Qed.

Lemma handleClose_is_stop (c : Closure) (now_id now_ts : N) (st : State) :
  handleClose c now_id now_ts st
  = if cl_isRecording c then stopInterview c now_id now_ts st else st.
Proof.
  unfold handleClose. destruct (cl_isRecording c); [|reflexivity].
  apply stop_reads. destruct st; reflexivity.
Qed.

(** X2.  The handlers that stop the session after an error ([handleError])
    and after a failed start (the [catch] block of [startInterview]) leave
    exactly the state a plain stop leaves: the status message each of them
    sets first, which names the cause, is overwritten by the stop routine,
    whose own status is one of the two [Interview ended] messages. *)
Theorem failure_status_is_overwritten :
  forall (c : Closure) (e_message m : string) (error_message : option string)
         (now_id now_ts : N) (st : State),
    handleError c e_message now_id now_ts st = stopInterview c now_id now_ts st /\
    startInterview_failed c error_message now_id now_ts st
    = stopInterview c now_id now_ts st /\
    (statusMessage (stopInterview c now_id now_ts st) = "Interview ended." \/
     statusMessage (stopInterview c now_id now_ts st)
     = "Interview ended and transcript saved!") /\
    statusMessage (handleError c e_message now_id now_ts st)
    <> ("Error: " ++ e_message ++ ". Please try again.")%string /\
    statusMessage (startInterview_failed c (Some m) now_id now_ts st)
    <> ("Failed to start: " ++ m)%string /\
    statusMessage (startInterview_failed c None now_id now_ts st)
    <> "Failed to start the interview due to an unknown error.".
Proof.
  intros c e_message m error_message now_id now_ts st.
  assert (Hstatus : statusMessage (stopInterview c now_id now_ts st) = "Interview ended." \/
                    statusMessage (stopInterview c now_id now_ts st)
                    = "Interview ended and transcript saved!").
  { run_stop c st; auto. }
  rewrite handleError_is_stop, !failed_is_stop.
  split; [reflexivity|]. split; [reflexivity|]. split; [exact Hstatus|].
  repeat split; destruct Hstatus as [-> | ->]; discriminate.
Qed.

(** ** Reading the trace *)

Lemma startedIds_app (l l' : list Effect) :
  startedIds (l ++ l') = startedIds l ++ startedIds l'.
Proof. apply flat_map_app. Qed.

Lemma stoppedIds_app (l l' : list Effect) :
  stoppedIds (l ++ l') = stoppedIds l ++ stoppedIds l'.
Proof. apply flat_map_app. Qed.

Lemma stoppedTracks_app (l l' : list Effect) :
  stoppedTracks (l ++ l') = stoppedTracks l ++ stoppedTracks l'.
Proof. apply flat_map_app. Qed.

Lemma written_app (l l' : list Effect) : written (l ++ l') = written l ++ written l'.
Proof. apply flat_map_app. Qed.

Lemma storageCalls_app (l l' : list Effect) :
  storageCalls (l ++ l') = storageCalls l ++ storageCalls l'.
Proof. apply flat_map_app. Qed.

Lemma read_SourceStops (l : list nat) :
  startedIds (map SourceStop l) = [] /\ stoppedIds (map SourceStop l) = l /\
  stoppedTracks (map SourceStop l) = [] /\ written (map SourceStop l) = [] /\
  storageCalls (map SourceStop l) = [].
Proof.
  induction l as [|x l (H1 & H2 & H3 & H4 & H5)]; cbn; repeat split; auto.
  unfold stoppedIds in *. cbn. now rewrite H2.
Qed.

Lemma read_released (c : Closure) (now_id now_ts : N) (st : State) :
  startedIds (released c now_id now_ts st) = [] /\
  stoppedIds (released c now_id now_ts st) = outputAudioSourcesRef st /\
  stoppedTracks (released c now_id now_ts st) = heldStream st /\
  written (released c now_id now_ts st)
  = (if (0 <? List.length (cl_messages c))%nat
     then [savedTranscripts st ++ [entryOf c now_id now_ts]] else []) /\
  storageCalls (released c now_id now_ts st)
  = (if (0 <? List.length (cl_messages c))%nat
     then [Some (savedTranscripts st ++ [entryOf c now_id now_ts])] else []).
Proof.
  destruct (read_SourceStops (outputAudioSourcesRef st)) as (H1 & H2 & H3 & H4 & H5).
  unfold released.
  rewrite !startedIds_app, !stoppedIds_app, !stoppedTracks_app, !written_app,
    !storageCalls_app.
  rewrite H1, H2, H3, H4, H5. unfold heldStream.
  destruct (0 <? List.length (cl_messages c))%nat; destruct (streamRef st);
    destruct (scriptProcessorRef st); destruct (inputAudioContextRef st);
    destruct (outputAudioContextRef st); cbn; rewrite ?app_nil_r; auto.
Qed.

(** ** The scheduler's bookkeeping *)

Lemma Scheduled_enqueue (live started stopped : list nat) (next : nat) :
  Scheduled live started stopped next ->
  Scheduled (live ++ [next]) (started ++ [next]) stopped (S next).
Proof.
  intros (Hl & Hs & Hst & Hlive & Hstop & Hnext).
  assert (Hfresh : ~ In next started).
  { intros Hin. apply Hnext in Hin. now apply Nat.lt_irrefl in Hin. }
  repeat split.
  - apply NoDup_app; [exact Hl|repeat constructor; auto|].
    intros s Hs1 [<-|[]]. apply Hfresh. now apply Hlive.
  - exact Hs.
  - apply NoDup_app; [exact Hst|repeat constructor; auto|].
    intros s Hs1 [<-|[]]. now apply Hfresh.
  - apply in_app_or in H as [H|[<-|[]]]; apply in_or_app.
    + left. now apply Hlive.
    + right. now left.
  - apply in_app_or in H as [H|[<-|[]]].
    + now apply Hlive.
    + intros Hin. apply Hfresh. now apply Hstop.
  - intros s Hin. apply in_or_app. left. now apply Hstop.
  - intros s Hin. apply in_app_or in Hin as [Hin|[<-|[]]].
    + apply Nat.lt_lt_succ_r. now apply Hnext.
    + apply Nat.lt_succ_diag_r.
Qed.

Lemma Scheduled_flush (live started stopped : list nat) (next : nat) :
  Scheduled live started stopped next ->
  Scheduled [] started (stopped ++ live) next.
Proof.
  intros (Hl & Hs & Hst & Hlive & Hstop & Hnext). repeat split.
  - constructor.
  - apply NoDup_app; [exact Hs|exact Hl|].
    intros s Hs1 Hs2. now apply (Hlive s Hs2).
  - exact Hst.
  - destruct H.
  - destruct H.
  - intros s Hin. apply in_app_or in Hin as [Hin|Hin].
    + now apply Hstop.
    + now apply Hlive.
  - exact Hnext.
Qed.

Lemma Scheduled_keep (live live' started stopped : list nat) (next next' : nat) :
  Scheduled live started stopped next ->
  NoDup live' -> (forall s, In s live' -> In s live) -> (next <= next')%nat ->
  Scheduled live' started stopped next'.
Proof.
  intros (Hl & Hs & Hst & Hlive & Hstop & Hnext) Hnd Hsub Hle. repeat split; auto.
  - now apply Hlive, Hsub.
  - now apply Hlive, Hsub.
  - intros s Hin. eapply Nat.lt_le_trans; [now apply Hnext|exact Hle].
Qed.

Lemma deliver_without_content (i : Inbound) (st : State) :
  serverContent (in_message i) = None -> deliver i st = st.
Proof. intros H. unfold deliver, handleMessage. now rewrite H. Qed.

Lemma deliver_keeps_scheduler (i : Inbound) (st : State) :
  SchedulerOk st -> SchedulerOk (deliver i st).
Proof.
  intros Hok. destruct (serverContent (in_message i)) as [sc|] eqn:Hsc.
  2:{ now rewrite deliver_without_content. }
  destruct (deliver_summary i sc st Hsc) as (He & Hl & Hn). cbv zeta in He, Hl.
  set (r := in_reading i) in *.
  destruct (read_SourceStops
              (outputAudioSourcesRef st
               ++ match enqueues r sc st with Some _ => [nextObject st] | None => [] end))
    as (R1 & R2 & _).
  unfold SchedulerOk in *. rewrite He, Hl, Hn.
  rewrite !startedIds_app, !stoppedIds_app.
  destruct (enqueues r sc st) as [duration|]; destruct (flushes r sc st);
    cbn [startedIds stoppedIds flat_map app];
    fold (startedIds (map SourceStop (outputAudioSourcesRef st ++ [nextObject st])));
    fold (stoppedIds (map SourceStop (outputAudioSourcesRef st ++ [nextObject st])));
    fold (startedIds (map SourceStop (outputAudioSourcesRef st ++ [])));
    fold (stoppedIds (map SourceStop (outputAudioSourcesRef st ++ [])));
    rewrite ?R1, ?R2, ?app_nil_r.
  - now apply Scheduled_flush, Scheduled_enqueue.
  - now apply Scheduled_enqueue.
  - now apply Scheduled_flush.
  - exact Hok.
Qed.

Lemma stop_keeps_scheduler (c : Closure) (now_id now_ts : N) (st : State) :
  SchedulerOk st -> SchedulerOk (stopInterview c now_id now_ts st).
Proof.
  intros Hok. destruct (stop_summary c now_id now_ts st) as (He & _ & Hn & _).
  destruct (stop_leaves_idle c now_id now_ts st) as (_ & _ & _ & _ & _ & Hl & _).
  destruct (read_released c now_id now_ts st) as (R1 & R2 & _).
  unfold SchedulerOk in *.
  rewrite He, Hl, Hn, startedIds_app, stoppedIds_app, R1, R2, app_nil_r.
  now apply Scheduled_flush.
Qed.

(** The handlers of the connection and of the archive view. *)
Lemma quiet_handlers (p k : nat) (show : bool) (inputData : list Z) (st : State) :
  traceView (startInterview_begin st) = traceView st /\
  traceView (onopen st) = traceView st /\
  traceView (connectFulfilled p st) = traceView st /\
  traceView (connectRejected p st) = traceView st /\
  traceView (set_showPastTranscripts show st) = traceView st /\
  traceView (viewTranscript k st) = traceView st /\
  traceView (set_selectedPastTranscript None st) = traceView st /\
  traceView (onaudioprocess inputData st) = traceView st.
Proof.
  destruct st. unfold traceView, viewTranscript, onaudioprocess. cbn.
  repeat split; repeat (split_test; cbn); reflexivity.
Qed.

Lemma granted_summary (st : State) :
  effects (startInterview_granted st) = effects st /\
  outputAudioSourcesRef (startInterview_granted st) = outputAudioSourcesRef st /\
  nextObject (startInterview_granted st) = (5 + nextObject st)%nat /\
  savedTranscripts (startInterview_granted st) = savedTranscripts st /\
  selectedPastTranscript (startInterview_granted st) = selectedPastTranscript st /\
  streamRef (startInterview_granted st) = Some (S (nextObject st)).
Proof. destruct st; cbn; repeat split. Qed.

Lemma delete_summary (id_ : string) (st : State) :
  let updated := filter (fun t => negb (String.eqb (saved_id t) id_))
                        (savedTranscripts st) in
  effects (deleteTranscript id_ st) = effects st ++ [StorageSet updated] /\
  savedTranscripts (deleteTranscript id_ st) = updated /\
  outputAudioSourcesRef (deleteTranscript id_ st) = outputAudioSourcesRef st /\
  nextObject (deleteTranscript id_ st) = nextObject st /\
  streamRef (deleteTranscript id_ st) = streamRef st /\
  selectedPastTranscript (deleteTranscript id_ st)
  = match selectedPastTranscript st with
    | Some t => if String.eqb (saved_id t) id_ then None else Some t
    | None => None
    end.
Proof.
  destruct st. unfold deleteTranscript. cbn.
  repeat (split_test; cbn); repeat split; congruence.
Qed.

Lemma clearAll_summary (confirmed : bool) (st : State) :
  effects (clearAllTranscripts confirmed st)
  = effects st ++ (if confirmed then [StorageRemove] else []) /\
  outputAudioSourcesRef (clearAllTranscripts confirmed st) = outputAudioSourcesRef st /\
  nextObject (clearAllTranscripts confirmed st) = nextObject st /\
  streamRef (clearAllTranscripts confirmed st) = streamRef st /\
  savedTranscripts (clearAllTranscripts confirmed st)
  = (if confirmed then [] else savedTranscripts st) /\
  selectedPastTranscript (clearAllTranscripts confirmed st)
  = (if confirmed then None else selectedPastTranscript st).
Proof. destruct st, confirmed; cbn; rewrite ?app_nil_r; repeat split. Qed.

Lemma SchedulerOk_traceView (st st' : State) :
  traceView st' = traceView st -> SchedulerOk st -> SchedulerOk st'.
Proof.
  unfold traceView, SchedulerOk. intros H. injection H as -> -> -> _ _. auto.
Qed.

Lemma ended_keeps_scheduler (c : Closure) (source : nat) (st : State) :
  SchedulerOk st -> SchedulerOk (sourceEnded c source st).
Proof.
  intros Hok. destruct (ended_schedule c source st) as (_ & He & _).
  assert (Hl : outputAudioSourcesRef (sourceEnded c source st)
               = filter (fun s => negb (Nat.eqb s source)) (outputAudioSourcesRef st)
               /\ nextObject (sourceEnded c source st) = nextObject st).
  { destruct st; unfold sourceEnded; unfold_setters; cbn. split_test; cbn; auto. }
  destruct Hl as (Hl & Hn). unfold SchedulerOk in *. rewrite He, Hl, Hn.
  eapply Scheduled_keep; [exact Hok| | |apply Nat.le_refl].
  - apply NoDup_filter. now destruct Hok.
  - intros s Hin. now apply filter_In in Hin.
Qed.

Lemma act_keeps_scheduler (a : Action) (st : State) :
  SchedulerOk st -> SchedulerOk (act a st).
Proof.
  intros Hok.
  assert (Hquiet : forall st', traceView st' = traceView st -> SchedulerOk st').
  { intros st' H. now apply (SchedulerOk_traceView st). }
  destruct a as [t t'| |c m t t'| |p|p|e|c t t'|c m t t'|c t t'|show|k| |id_|confirmed];
    cbn [act].
  - unfold toggleInterview. destruct (isRecording st || isLoading st).
    + now apply stop_keeps_scheduler.
    + apply Hquiet. apply (quiet_handlers 0 0 false [] st).
  - destruct (granted_summary st) as (He & Hl & Hn & _).
    unfold SchedulerOk in *. rewrite He, Hl, Hn.
    eapply Scheduled_keep; [exact Hok|now destruct Hok|auto|].
    apply Nat.le_add_l.
  - rewrite failed_is_stop. now apply stop_keeps_scheduler.
  - apply Hquiet. apply (quiet_handlers 0 0 false [] st).
  - apply Hquiet. apply (quiet_handlers p 0 false [] st).
  - apply Hquiet. apply (quiet_handlers p 0 false [] st).
  - destruct e as [i|c source|inputData]; cbn [step].
    + now apply deliver_keeps_scheduler.
    + now apply ended_keeps_scheduler.
    + apply Hquiet. apply (quiet_handlers 0 0 false inputData st).
  - now apply stop_keeps_scheduler.
  - rewrite handleError_is_stop. now apply stop_keeps_scheduler.
  - rewrite handleClose_is_stop. destruct (cl_isRecording c); [|exact Hok].
    now apply stop_keeps_scheduler.
  - apply Hquiet. apply (quiet_handlers 0 0 show [] st).
  - apply Hquiet. apply (quiet_handlers 0 k false [] st).
  - apply Hquiet. apply (quiet_handlers 0 0 false [] st).
  - destruct (delete_summary id_ st) as (He & _ & Hl & Hn & _).
    unfold SchedulerOk in *. rewrite He, Hl, Hn, startedIds_app, stoppedIds_app.
    cbn. now rewrite !app_nil_r.
  - destruct (clearAll_summary confirmed st) as (He & Hl & Hn & _).
    unfold SchedulerOk in *. rewrite He, Hl, Hn, startedIds_app, stoppedIds_app.
    destruct confirmed; cbn; now rewrite !app_nil_r.
Qed.

(** X3.  In every run of the component that starts from the first render,
    whatever the order of the actions and whatever the closures, the live
    playback sources are distinct, each has been started and none of them has
    been stopped; [stop()] is only ever called on a source that was started,
    and at most once on each; every source is started once. *)
Theorem playback_sources_are_stopped_once :
  forall (actions : list Action) (st : State),
    SchedulerOk st ->
    let st' := perform actions st in
    SchedulerOk st' /\
    NoDup (stoppedIds (effects st')) /\
    NoDup (startedIds (effects st')) /\
    (forall s, In s (stoppedIds (effects st')) -> In s (startedIds (effects st'))) /\
    (forall s, In s (outputAudioSourcesRef st') ->
               In s (startedIds (effects st')) /\ ~ In s (stoppedIds (effects st'))).
Proof.
  intros actions st Hok st'. subst st'.
  assert (H : SchedulerOk (perform actions st)).
  { revert st Hok. induction actions as [|a actions IH]; intros st Hok.
    - exact Hok.
    - cbn. apply IH. now apply act_keeps_scheduler. }
  split; [exact H|]. destruct H as (_ & Hs & Hst & Hlive & Hstop & _). auto.
Qed.

(** Witness of X3: from the first render, a run in which two chunks are
    enqueued, one ends, an interruption comes and the session is stopped. *)
Lemma playback_sources_are_stopped_once_witness :
  let actions := [Toggle 1 1; Granted; Opened;
                  Happens (inbound firstRender (at_ 2 0 1) (chunk "AAAA"));
                  Happens (inbound firstRender (at_ 3 0 1) (chunk "BBBB"));
                  Happens (Ended firstRender 5);
                  Happens (inbound firstRender (at_ 4 0 0) bargeIn);
                  Stop firstRender 5 5] in
  SchedulerOk initial /\
  startedIds (effects (perform actions initial)) = [5%nat; 6%nat] /\
  NoDup (stoppedIds (effects (perform actions initial))).
Proof.
  cbv zeta.
  assert (H : SchedulerOk initial).
  { unfold SchedulerOk, Scheduled. cbn.
    repeat split; try apply NoDup_nil; intros; contradiction. }
  split; [exact H|]. split; [reflexivity|].
  destruct (playback_sources_are_stopped_once
              [Toggle 1 1; Granted; Opened;
               Happens (inbound firstRender (at_ 2 0 1) (chunk "AAAA"));
               Happens (inbound firstRender (at_ 3 0 1) (chunk "BBBB"));
               Happens (Ended firstRender 5);
               Happens (inbound firstRender (at_ 4 0 0) bargeIn);
               Stop firstRender 5 5] initial H) as (_ & Hnd & _).
  exact Hnd.
Defined.

(** ** Conversation handlers and the rest of the state *)

Lemma deliver_reads (i : Inbound) (st : State) :
  written (effects (deliver i st)) = written (effects st) /\
  stoppedTracks (effects (deliver i st)) = stoppedTracks (effects st) /\
  (nextObject st <= nextObject (deliver i st))%nat /\
  storageCalls (effects (deliver i st)) = storageCalls (effects st).
Proof.
  destruct (serverContent (in_message i)) as [sc|] eqn:Hsc.
  2:{ rewrite deliver_without_content by assumption. auto. }
  destruct (deliver_summary i sc st Hsc) as (He & _ & Hn). cbv zeta in He.
  set (r := in_reading i) in *.
  rewrite He, Hn, !written_app, !stoppedTracks_app, !storageCalls_app.
  destruct (read_SourceStops
              (outputAudioSourcesRef st
               ++ match enqueues r sc st with Some _ => [nextObject st] | None => [] end))
    as (_ & _ & R3 & R4 & R5).
  destruct (enqueues r sc st) as [duration|]; destruct (flushes r sc st); cbn [app];
    rewrite ?R3, ?R4, ?R5; cbn; rewrite ?app_nil_r; auto.
Qed.

Lemma ended_summary (c : Closure) (source : nat) (st : State) :
  outputAudioSourcesRef (sourceEnded c source st)
  = filter (fun s => negb (Nat.eqb s source)) (outputAudioSourcesRef st) /\
  nextObject (sourceEnded c source st) = nextObject st.
Proof.
  destruct st; unfold sourceEnded; unfold_setters; cbn. split_test; cbn; auto.
Qed.

(** X1.  Whatever an inbound message carries and whatever source a
    playback-ended notification names, handling it changes neither the
    recording and loading flags, nor the archive and what is shown of it, nor
    any resource ref (session, microphone stream, audio contexts, script
    processor), nor any session promise; it writes nothing to storage and
    stops no microphone track.  A playback-ended notification also leaves the
    transcript and the trace of calls as they are. *)
Theorem conversation_handlers_keep_the_session :
  forall (i : Inbound) (c : Closure) (source : nat) (st : State),
    beyondConversation (deliver i st) = beyondConversation st /\
    written (effects (deliver i st)) = written (effects st) /\
    stoppedTracks (effects (deliver i st)) = stoppedTracks (effects st) /\
    beyondConversation (sourceEnded c source st) = beyondConversation st /\
    effects (sourceEnded c source st) = effects st /\
    messages (sourceEnded c source st) = messages st.
Proof.
  intros i c source st.
  destruct (deliver_reads i st) as (Hw & Ht & _).
  destruct (ended_beyond c source st) as (Hb & Hm).
  destruct (ended_schedule c source st) as (_ & He & _).
  repeat split; auto. apply deliver_beyond.
Qed.

(** ** Releasing what the session holds *)

(** X4.  Stopping a session that is recording or loading makes exactly the
    calls of [released], in that order, after the calls already made: the
    routine stops the tracks of the stream it holds, disconnects the script
    processor and closes the input context when it holds both, stops every
    live playback source, closes the output context it holds, and asks the
    session it holds to close (at once when the session promise is
    fulfilled, on fulfilment when it is pending).  When the transcript it
    sees is not empty, the archive with the new entry is written to storage
    after all of these, by the updater that React runs once the routine has
    returned. *)
Theorem stop_releases_what_it_holds :
  forall (c : Closure) (now_id now_ts : N) (st : State),
    isRecording st || isLoading st = true ->
    let st' := stopInterview c now_id now_ts st in
    effects st' = effects st ++ released c now_id now_ts st /\
    (forall stream, streamRef st = Some stream -> In (TrackStop stream) (effects st')) /\
    (forall node ctx,
       scriptProcessorRef st = Some node -> inputAudioContextRef st = Some ctx ->
       In (NodeDisconnect node) (effects st') /\ In (ContextClose ctx) (effects st')) /\
    (forall source, In source (outputAudioSourcesRef st) ->
                    In (SourceStop source) (effects st')) /\
    (forall ctx, outputAudioContextRef st = Some ctx ->
                 In (ContextClose ctx) (effects st')) /\
    (forall p cell,
       liveSessionRef st = Some p -> nth_error (promises st) p = Some cell ->
       nth_error (promises st') p = Some (then_ ThenClose cell)) /\
    (cl_messages c <> [] ->
     exists calls, effects st' = calls ++ [StorageSet (savedTranscripts st')]) /\
    (cl_messages c = [] -> storageCalls (effects st') = storageCalls (effects st)) /\
    streamRef st' = None /\ outputAudioContextRef st' = None /\
    liveSessionRef st' = None /\ outputAudioSourcesRef st' = [].
Proof.
  intros c now_id now_ts st _ st'. subst st'.
  destruct (stop_summary c now_id now_ts st) as (He & Hp & _).
  destruct (stop_leaves_idle c now_id now_ts st)
    as (_ & _ & _ & Hs & _ & Hl & _ & Ho & Hlive & _).
  destruct (read_released c now_id now_ts st) as (_ & _ & _ & _ & Hcalls).
  split; [exact He|]. rewrite He.
  split; [|split; [|split; [|split; [|split; [|split; [|split]]]]]].
  - unfold released, heldStream. intros stream ->. apply in_or_app. right.
    apply in_or_app. left. now left.
  - unfold released. intros node ctx -> ->.
    split; apply in_or_app; right; apply in_or_app; right;
      apply in_or_app; left; cbn; auto.
  - unfold released. intros source Hin. apply in_or_app. right. apply in_or_app. right.
    apply in_or_app. right. apply in_or_app. left. now apply in_map.
  - unfold released. intros ctx ->. apply in_or_app. right. apply in_or_app. right.
    apply in_or_app. right. apply in_or_app. right. apply in_or_app. left. now left.
  - intros p cell Hlv Hcell. rewrite Hp, Hlv, nth_error_updateAt, Hcell. reflexivity.
  - intros Hne. rewrite stop_archive. fold (entryOf c now_id now_ts). unfold released.
    destruct (cl_messages c) as [|m l]; [contradiction|]. cbn [List.length Nat.ltb Nat.leb].
    eexists. rewrite !app_assoc. reflexivity.
  - intros Hnone. rewrite storageCalls_app, Hcalls, Hnone. cbn. now rewrite app_nil_r.
  - auto.
Qed.

(** Witness of X4: the agent's [Hello] has been finalized and one chunk
    plays when the session is stopped; the archive is written last. *)
Lemma stop_releases_what_it_holds_witness :
  let c := render active in
  let st := play [inbound c (at_ 7 0 0) (spoken "Hello");
                 inbound c (at_ 8 0 0) turnDone;
                 inbound c (at_ 9 0 1) (chunk "AAAA")] active in
  isRecording st || isLoading st = true /\
  cl_messages (render st) <> [] /\
  effects (stopInterview (render st) 9 9 st)
  = [SourceStart 5 0 1; TrackStop 1; NodeDisconnect 4; ContextClose 2;
     SourceStop 5; ContextClose 3;
     StorageSet [mkSaved "transcript-9" 9 [mkMsg "model-7" MODEL "Hello" false]]] /\
  sessionCalls 0 (stopInterview (render st) 9 9 st) = [close].
Proof.
  cbv zeta. split; [reflexivity|]. split; [discriminate|]. split.
  - rewrite (proj1 (stop_releases_what_it_holds
                      (render (play [inbound (render active) (at_ 7 0 0) (spoken "Hello");
                                     inbound (render active) (at_ 8 0 0) turnDone;
                                     inbound (render active) (at_ 9 0 1) (chunk "AAAA")]
                                    active)) 9 9
                      (play [inbound (render active) (at_ 7 0 0) (spoken "Hello");
                             inbound (render active) (at_ 8 0 0) turnDone;
                             inbound (render active) (at_ 9 0 1) (chunk "AAAA")] active)
                      eq_refl)).
    reflexivity.
  - reflexivity.
Defined.

(** X5.  The stop routine closes the input audio context only together with
    the script processor: when no script processor exists, as after a start
    that failed between the creation of the contexts and the creation of the
    processor, the input context is neither closed nor forgotten, while the
    stream and the output context are released as usual. *)
Theorem input_context_outlives_a_failed_start :
  forall (c : Closure) (now_id now_ts : N) (st : State) (ctx : nat),
    scriptProcessorRef st = None ->
    inputAudioContextRef st = Some ctx ->
    outputAudioContextRef st <> Some ctx ->
    ~ In (ContextClose ctx) (effects st) ->
    let st' := stopInterview c now_id now_ts st in
    inputAudioContextRef st' = Some ctx /\
    ~ In (ContextClose ctx) (effects st') /\
    Idle st'.
Proof.
  intros c now_id now_ts st ctx Hnode Hin Hout Hnot st'. subst st'.
  destruct (stop_summary c now_id now_ts st) as (He & _ & _ & _ & _ & Hkeep).
  split; [rewrite (Hkeep Hnode); exact Hin|]. split; [|apply stop_leaves_idle].
  rewrite He. unfold released, heldStream. rewrite Hnode.
  intros H. apply in_app_or in H as [H|H]; [now apply Hnot|].
  apply in_app_or in H as [H|H].
  { destruct (streamRef st); cbn in H; [destruct H as [H|[]]; discriminate H|contradiction]. }
  cbn [app] in H. apply in_app_or in H as [H|H].
  { apply in_map_iff in H as (x & Hx & _). discriminate Hx. }
  apply in_app_or in H as [H|H].
  { destruct (outputAudioContextRef st); cbn in H; [|contradiction].
    destruct H as [H|[]]. injection H as ->. now apply Hout. }
  destruct (0 <? List.length (cl_messages c))%nat; cbn in H; [|contradiction].
  destruct H as [H|[]]. discriminate H.
Qed.

(** Witness of X5: [ai.live.connect] throws right after the contexts were
    created; the catch block stops the session. *)
Lemma input_context_outlives_a_failed_start_witness :
  let st := startInterview_contexts (startInterview_begin initial) in
  scriptProcessorRef st = None /\
  inputAudioContextRef st = Some 2%nat /\
  inputAudioContextRef (startInterview_failed (render st) (Some "connect") 1 1 st)
  = Some 2%nat /\
  effects (startInterview_failed (render st) (Some "connect") 1 1 st)
  = [TrackStop 1; ContextClose 3].
Proof.
  cbv zeta. split; [reflexivity|]. split; [reflexivity|]. split; [|reflexivity].
  rewrite failed_is_stop.
  apply (input_context_outlives_a_failed_start
           (render (startInterview_contexts (startInterview_begin initial))) 1 1
           (startInterview_contexts (startInterview_begin initial)) 2);
    cbn; try reflexivity; try discriminate; auto.
Defined.

(** ** The stream that is only tested *)

(** One action, seen from the microphone streams: the allocator does not go
    back, the stream ref stays, is cleared or takes the second stream of a
    start, and the only tracks stopped are those of the stream held. *)
Lemma act_streams (a : Action) (st : State) :
  (nextObject st <= nextObject (act a st))%nat /\
  (streamRef (act a st) = streamRef st \/ streamRef (act a st) = None \/
   streamRef (act a st) = Some (S (nextObject st))) /\
  (stoppedTracks (effects (act a st)) = stoppedTracks (effects st) \/
   stoppedTracks (effects (act a st)) = stoppedTracks (effects st) ++ heldStream st).
Proof.
  assert (Hquiet : forall st', traceView st' = traceView st ->
            (nextObject st <= nextObject st')%nat /\
            (streamRef st' = streamRef st \/ streamRef st' = None \/
             streamRef st' = Some (S (nextObject st))) /\
            (stoppedTracks (effects st') = stoppedTracks (effects st) \/
             stoppedTracks (effects st')
             = stoppedTracks (effects st) ++ heldStream st)).
  { intros st' H. unfold traceView in H. injection H as -> _ -> _ ->. auto. }
  assert (Hstop : forall c t t',
            (nextObject st <= nextObject (stopInterview c t t' st))%nat /\
            (streamRef (stopInterview c t t' st) = streamRef st \/
             streamRef (stopInterview c t t' st) = None \/
             streamRef (stopInterview c t t' st) = Some (S (nextObject st))) /\
            (stoppedTracks (effects (stopInterview c t t' st))
             = stoppedTracks (effects st) \/
             stoppedTracks (effects (stopInterview c t t' st))
             = stoppedTracks (effects st) ++ heldStream st)).
  { intros c t t'. destruct (stop_summary c t t' st) as (He & _ & Hn & _).
    destruct (stop_leaves_idle c t t' st) as (_ & _ & _ & Hs & _).
    destruct (read_released c t t' st) as (_ & _ & R3 & _ & _).
    rewrite He, Hn, Hs, stoppedTracks_app, R3. auto. }
  destruct a as [t t'| |c m t t'| |p|p|e|c t t'|c m t t'|c t t'|show|k| |id_|confirmed];
    cbn [act].
  - unfold toggleInterview. destruct (isRecording st || isLoading st).
    + apply Hstop.
    + apply Hquiet. apply (quiet_handlers 0 0 false [] st).
  - destruct (granted_summary st) as (He & _ & Hn & _ & _ & Hs).
    rewrite He, Hn, Hs. split; [apply Nat.le_add_l|]. auto.
  - rewrite failed_is_stop. apply Hstop.
  - apply Hquiet. apply (quiet_handlers 0 0 false [] st).
  - apply Hquiet. apply (quiet_handlers p 0 false [] st).
  - apply Hquiet. apply (quiet_handlers p 0 false [] st).
  - destruct e as [i|c source|inputData]; cbn [step].
    + destruct (deliver_reads i st) as (_ & Ht & Hn & _).
      pose proof (deliver_beyond i st) as Hb. unfold beyondConversation in Hb.
      injection Hb as _ _ _ _ _ _ Hs _ _ _ _. rewrite Ht, Hs. auto.
    + destruct (ended_summary c source st) as (_ & Hn).
      destruct (ended_schedule c source st) as (_ & He & _).
      destruct (ended_beyond c source st) as (Hb & _). unfold beyondConversation in Hb.
      injection Hb as _ _ _ _ _ _ Hs _ _ _ _. rewrite Hn, He, Hs. auto.
    + apply Hquiet. apply (quiet_handlers 0 0 false inputData st).
  - apply Hstop.
  - rewrite handleError_is_stop. apply Hstop.
  - rewrite handleClose_is_stop. destruct (cl_isRecording c); [apply Hstop|auto].
  - apply Hquiet. apply (quiet_handlers 0 0 show [] st).
  - apply Hquiet. apply (quiet_handlers 0 k false [] st).
  - apply Hquiet. apply (quiet_handlers 0 0 false [] st).
  - destruct (delete_summary id_ st) as (He & _ & _ & Hn & Hs & _).
    rewrite He, Hn, Hs, stoppedTracks_app. cbn. rewrite app_nil_r. auto.
  - destruct (clearAll_summary confirmed st) as (He & _ & Hn & Hs & _).
    rewrite He, Hn, Hs, stoppedTracks_app.
    destruct confirmed; cbn; rewrite app_nil_r; auto.
Qed.

(** X6.  [startInterview] calls [getUserMedia] twice and keeps the second
    stream only.  Whatever happens after the start, in any order (stops,
    restarts, errors, closes, messages), the tracks of the first stream are
    never stopped. *)
Theorem tested_stream_is_never_stopped :
  forall (actions : list Action) (st : State),
    ~ In (nextObject st) (stoppedTracks (effects st)) ->
    let tested := nextObject st in
    let st' := perform actions (startInterview_granted st) in
    streamRef (startInterview_granted st) = Some (S tested) /\
    streamRef st' <> Some tested /\
    ~ In tested (stoppedTracks (effects st')).
Proof.
  intros actions st Hnot tested st'. subst tested st'.
  destruct (granted_summary st) as (He & _ & Hn & _ & _ & Hs).
  split; [exact Hs|].
  assert (Hinv : forall st0,
            (nextObject st < nextObject st0)%nat ->
            streamRef st0 <> Some (nextObject st) ->
            ~ In (nextObject st) (stoppedTracks (effects st0)) ->
            streamRef (perform actions st0) <> Some (nextObject st) /\
            ~ In (nextObject st) (stoppedTracks (effects (perform actions st0)))).
  { induction actions as [|a actions IH]; intros st0 Hlt Href Hin.
    - auto.
    - cbn. destruct (act_streams a st0) as (Hle & Hstream & Htracks).
      apply IH.
      + eapply Nat.lt_le_trans; eassumption.
      + destruct Hstream as [->| [->| ->]]; [exact Href|discriminate|].
        intros H. injection H as H. rewrite <- H in Hlt.
        apply (Nat.lt_irrefl (nextObject st0)).
        now apply Nat.lt_succ_l.
      + destruct Htracks as [->| ->]; [exact Hin|].
        intros H. apply in_app_or in H as [H|H]; [now apply Hin|].
        unfold heldStream in H. destruct (streamRef st0) as [s|]; [|contradiction].
        destruct H as [H|[]]. apply Href. now rewrite H. }
  apply Hinv.
  - rewrite Hn. cbn. apply Nat.lt_succ_r. do 4 apply Nat.le_le_succ_r. apply Nat.le_refl.
  - rewrite Hs. intros H. injection H as H. now apply Nat.neq_succ_diag_l in H.
  - now rewrite He.
Qed.

(** Witness of X6: a session is started from the first render, opened,
    stopped, started again and stopped again; the kept streams 1 and 6 are
    stopped, the tested stream 0 is not. *)
Lemma tested_stream_is_never_stopped_witness :
  let actions := [Opened; Stop firstRender 1 1; Toggle 2 2; Granted;
                  Stop firstRender 3 3] in
  ~ In (nextObject initial) (stoppedTracks (effects initial)) /\
  stoppedTracks (effects (perform actions (startInterview_granted initial)))
  = [1%nat; 6%nat] /\
  ~ In 0%nat (stoppedTracks (effects (perform actions (startInterview_granted initial)))).
Proof.
  cbv zeta. split; [intros []|]. split; [reflexivity|].
  apply (tested_stream_is_never_stopped
           [Opened; Stop firstRender 1 1; Toggle 2 2; Granted; Stop firstRender 3 3]
           initial).
  intros [].
Defined.

(** ** The archive *)

Lemma selection_after (p k : nat) (show : bool) (inputData : list Z) (st : State) :
  selectedPastTranscript (startInterview_begin st) = None /\
  selectedPastTranscript (onopen st) = selectedPastTranscript st /\
  selectedPastTranscript (connectFulfilled p st) = selectedPastTranscript st /\
  selectedPastTranscript (connectRejected p st) = selectedPastTranscript st /\
  selectedPastTranscript (set_showPastTranscripts show st) = selectedPastTranscript st /\
  selectedPastTranscript (viewTranscript k st)
  = match nth_error (savedTranscripts st) k with
    | Some t => Some t
    | None => selectedPastTranscript st
    end /\
  selectedPastTranscript (set_selectedPastTranscript None st) = None /\
  selectedPastTranscript (onaudioprocess inputData st) = selectedPastTranscript st.
Proof.
  destruct st. unfold viewTranscript, onaudioprocess. cbn.
  repeat split; repeat (split_test; cbn); reflexivity.
Qed.

Lemma stop_archive_summary (c : Closure) (now_id now_ts : N) (st : State) :
  let st' := stopInterview c now_id now_ts st in
  selectedPastTranscript st' = selectedPastTranscript st /\
  ((cl_messages c = [] /\ savedTranscripts st' = savedTranscripts st /\
    written (effects st') = written (effects st) /\
    storageCalls (effects st') = storageCalls (effects st)) \/
   (cl_messages c <> [] /\
    savedTranscripts st' = savedTranscripts st ++ [entryOf c now_id now_ts] /\
    written (effects st') = written (effects st) ++ [savedTranscripts st'] /\
    storageCalls (effects st') = storageCalls (effects st) ++ [Some (savedTranscripts st')])).
Proof.
  intros st'. subst st'.
  destruct (stop_summary c now_id now_ts st) as (He & _ & _ & _ & Hsel & _).
  destruct (read_released c now_id now_ts st) as (_ & _ & _ & R4 & R5).
  split; [exact Hsel|].
  rewrite He, written_app, storageCalls_app, R4, R5, stop_archive.
  fold (entryOf c now_id now_ts).
  destruct (cl_messages c) as [|m l]; cbn.
  - left. now rewrite !app_nil_r.
  - right. split; [discriminate|]. auto.
Qed.

(** One action, seen from the archive and from the storage item: the archive
    and the item stay as they are, or the archive gets a new entry and is
    written, or entries are deleted and the rest is written, or the archive
    is emptied and the item removed. *)
Lemma act_archive (a : Action) (st : State) :
  let st' := act a st in
  (savedTranscripts st' = savedTranscripts st /\
   storageCalls (effects st') = storageCalls (effects st) /\
   (selectedPastTranscript st' = selectedPastTranscript st \/
    selectedPastTranscript st' = None \/
    exists t, selectedPastTranscript st' = Some t /\ In t (savedTranscripts st))) \/
  (exists c now_id now_ts,
     savedTranscripts st' = savedTranscripts st ++ [entryOf c now_id now_ts] /\
     storageCalls (effects st') = storageCalls (effects st) ++ [Some (savedTranscripts st')] /\
     selectedPastTranscript st' = selectedPastTranscript st) \/
  (exists id_,
     savedTranscripts st'
     = filter (fun t => negb (String.eqb (saved_id t) id_)) (savedTranscripts st) /\
     storageCalls (effects st') = storageCalls (effects st) ++ [Some (savedTranscripts st')] /\
     selectedPastTranscript st'
     = match selectedPastTranscript st with
       | Some t => if String.eqb (saved_id t) id_ then None else Some t
       | None => None
       end) \/
  (savedTranscripts st' = [] /\
   storageCalls (effects st') = storageCalls (effects st) ++ [None] /\
   selectedPastTranscript st' = None).
Proof.
  intros st'. subst st'.
  assert (Hstop : forall c t t',
    (savedTranscripts (stopInterview c t t' st) = savedTranscripts st /\
     storageCalls (effects (stopInterview c t t' st)) = storageCalls (effects st) /\
     (selectedPastTranscript (stopInterview c t t' st) = selectedPastTranscript st \/
      selectedPastTranscript (stopInterview c t t' st) = None \/
      exists t0, selectedPastTranscript (stopInterview c t t' st) = Some t0 /\
                 In t0 (savedTranscripts st))) \/
    (exists c0 now_id now_ts,
       savedTranscripts (stopInterview c t t' st)
       = savedTranscripts st ++ [entryOf c0 now_id now_ts] /\
       storageCalls (effects (stopInterview c t t' st))
       = storageCalls (effects st) ++ [Some (savedTranscripts (stopInterview c t t' st))] /\
       selectedPastTranscript (stopInterview c t t' st) = selectedPastTranscript st) \/
    (exists id_,
       savedTranscripts (stopInterview c t t' st)
       = filter (fun t => negb (String.eqb (saved_id t) id_)) (savedTranscripts st) /\
       storageCalls (effects (stopInterview c t t' st))
       = storageCalls (effects st) ++ [Some (savedTranscripts (stopInterview c t t' st))] /\
       selectedPastTranscript (stopInterview c t t' st)
       = match selectedPastTranscript st with
         | Some t => if String.eqb (saved_id t) id_ then None else Some t
         | None => None
         end) \/
    (savedTranscripts (stopInterview c t t' st) = [] /\
     storageCalls (effects (stopInterview c t t' st)) = storageCalls (effects st) ++ [None] /\
     selectedPastTranscript (stopInterview c t t' st) = None)).
  { intros c t t'.
    destruct (stop_archive_summary c t t' st)
      as (Hsel & [(_ & Hs & _ & Hw)|(_ & Hs & _ & Hw)]).
    - left. auto.
    - right. left. exists c, t, t'. auto. }
  assert (Hquiet : forall st', traceView st' = traceView st ->
            savedTranscripts st' = savedTranscripts st /\
            storageCalls (effects st') = storageCalls (effects st)).
  { intros st' H. unfold traceView in H. injection H as -> _ _ -> _. auto. }
  destruct (selection_after 0 0 false [] st) as (S1 & S2 & _).
  destruct a as [t t'| |c m t t'| |p|p|e|c t t'|c m t t'|c t t'|show|k| |id_|confirmed];
    cbn [act].
  - unfold toggleInterview. destruct (isRecording st || isLoading st); [apply Hstop|].
    left. destruct (Hquiet _ (proj1 (quiet_handlers 0 0 false [] st))) as (-> & ->).
    rewrite S1. auto.
  - left. destruct (granted_summary st) as (-> & _ & _ & -> & -> & _). auto.
  - rewrite failed_is_stop. apply Hstop.
  - left. destruct (Hquiet (onopen st)) as (-> & ->);
      [apply (quiet_handlers 0 0 false [] st)|]. rewrite S2. auto.
  - left. destruct (Hquiet (connectFulfilled p st)) as (-> & ->);
      [apply (quiet_handlers p 0 false [] st)|].
    destruct (selection_after p 0 false [] st) as (_ & _ & -> & _). auto.
  - left. destruct (Hquiet (connectRejected p st)) as (-> & ->);
      [apply (quiet_handlers p 0 false [] st)|].
    destruct (selection_after p 0 false [] st) as (_ & _ & _ & -> & _). auto.
  - left. destruct e as [i|c source|inputData]; cbn [step].
    + destruct (deliver_reads i st) as (_ & _ & _ & ->).
      pose proof (deliver_beyond i st) as Hb. unfold beyondConversation in Hb.
      injection Hb as _ _ -> _ -> _ _ _ _ _ _. auto.
    + destruct (ended_schedule c source st) as (_ & -> & _).
      destruct (ended_beyond c source st) as (Hb & _). unfold beyondConversation in Hb.
      injection Hb as _ _ -> _ -> _ _ _ _ _ _. auto.
    + destruct (Hquiet (onaudioprocess inputData st)) as (-> & ->);
        [apply (quiet_handlers 0 0 false inputData st)|].
      destruct (selection_after 0 0 false inputData st)
        as (_ & _ & _ & _ & _ & _ & _ & ->). auto.
  - apply Hstop.
  - rewrite handleError_is_stop. apply Hstop.
  - rewrite handleClose_is_stop. destruct (cl_isRecording c); [apply Hstop|]. left. auto.
  - left. destruct (Hquiet (set_showPastTranscripts show st)) as (-> & ->);
      [apply (quiet_handlers 0 0 show [] st)|].
    destruct (selection_after 0 0 show [] st) as (_ & _ & _ & _ & -> & _). auto.
  - left. destruct (Hquiet (viewTranscript k st)) as (-> & ->);
      [apply (quiet_handlers 0 k false [] st)|].
    destruct (selection_after 0 k false [] st) as (_ & _ & _ & _ & _ & -> & _).
    split; [reflexivity|]. split; [reflexivity|].
    destruct (nth_error (savedTranscripts st) k) as [t|] eqn:Hk; [|auto].
    right. right. exists t. split; [reflexivity|]. eapply nth_error_In; eassumption.
  - left. destruct (Hquiet (set_selectedPastTranscript None st)) as (-> & ->);
      [apply (quiet_handlers 0 0 false [] st)|].
    destruct (selection_after 0 0 false [] st) as (_ & _ & _ & _ & _ & _ & -> & _). auto.
  - right. right. left. exists id_.
    destruct (delete_summary id_ st) as (He & Hs & _ & _ & _ & Hsel).
    rewrite He, Hs, Hsel, storageCalls_app. cbn. auto.
  - destruct (clearAll_summary confirmed st) as (He & _ & _ & _ & Hs & Hsel).
    rewrite He, Hs, Hsel, storageCalls_app.
    destruct confirmed; [right; right; right|left]; cbn; rewrite ?app_nil_r; auto.
Qed.

Lemma entryOf_finalized (c : Closure) (now_id now_ts : N) (msg : ChatMessage) :
  In msg (saved_messages (entryOf c now_id now_ts)) -> isPartial msg = false.
Proof.
  unfold entryOf. cbn. intros H. apply filter_In in H as [_ H].
  now apply negb_true_iff in H.
Qed.

(** X7.  If the archive the component starts with holds finalized messages
    only, then so does the archive after any run of the component: no action
    ever puts a partial message into an archive entry. *)
Theorem archive_holds_finalized_messages_only :
  forall (actions : list Action) (st : State),
    finalizedOnly (savedTranscripts st) ->
    finalizedOnly (savedTranscripts (perform actions st)).
Proof.
  induction actions as [|a actions IH]; intros st Hok; [exact Hok|].
  cbn. apply IH.
  destruct (act_archive a st)
    as [(Hs & _)|[(c & t & t' & Hs & _)|[(id_ & Hs & _)|(Hs & _)]]];
    rewrite Hs; unfold finalizedOnly in *.
  - exact Hok.
  - intros e msg Hin Hmsg. apply in_app_or in Hin as [Hin|[<-|[]]].
    + now apply (Hok e).
    + now apply (entryOf_finalized c t t').
  - intros e msg Hin Hmsg. apply filter_In in Hin as [Hin _]. now apply (Hok e).
  - intros e msg [].
Qed.

(** Witness of X7: the agent's partial is on screen when the session is
    stopped; the entry that is archived holds no message. *)
Lemma archive_holds_finalized_messages_only_witness :
  let actions := [Toggle 1 1; Granted; Opened;
                  Happens (inbound firstRender (at_ 2 0 0) (spoken "Hello"));
                  Toggle 3 3] in
  finalizedOnly (savedTranscripts initial) /\
  savedTranscripts (perform actions initial) = [mkSaved "transcript-3" 3 []] /\
  finalizedOnly (savedTranscripts (perform actions initial)).
Proof.
  cbv zeta.
  assert (H : finalizedOnly (savedTranscripts initial)) by (intros t msg []).
  split; [exact H|]. split; [reflexivity|].
  exact (archive_holds_finalized_messages_only
           [Toggle 1 1; Granted; Opened;
            Happens (inbound firstRender (at_ 2 0 0) (spoken "Hello"));
            Toggle 3 3] initial H).
Defined.

(** X8.  The transcript selected in the archive view is always one of the
    archive entries: whatever the run, a selection that was an entry of the
    archive stays one or is cleared, and deleting or clearing never leaves a
    selection behind that the archive no longer holds. *)
Theorem selection_is_an_archive_entry :
  forall (actions : list Action) (st : State),
    (forall t, selectedPastTranscript st = Some t -> In t (savedTranscripts st)) ->
    forall t, selectedPastTranscript (perform actions st) = Some t ->
              In t (savedTranscripts (perform actions st)).
Proof.
  induction actions as [|a actions IH]; intros st Hok; [exact Hok|].
  cbn. apply IH. intros t Hsel.
  destruct (act_archive a st)
    as [(Hs & _ & Hc)|[(c & n & n' & Hs & _ & Hc)|[(id_ & Hs & _ & Hc)|(_ & _ & Hc)]]].
  - rewrite Hs. destruct Hc as [Hc|[Hc|(t0 & Hc & Hin)]].
    + apply Hok. now rewrite <- Hc.
    + rewrite Hc in Hsel. discriminate.
    + rewrite Hc in Hsel. injection Hsel as <-. exact Hin.
  - rewrite Hs. apply in_or_app. left. apply Hok. now rewrite <- Hc.
  - rewrite Hs. rewrite Hc in Hsel.
    destruct (selectedPastTranscript st) as [t0|] eqn:Hsel0; [|discriminate].
    destruct (String.eqb (saved_id t0) id_) eqn:Hid; [discriminate|].
    injection Hsel as <-. apply filter_In. split; [now apply Hok|].
    now rewrite Hid.
  - rewrite Hc in Hsel. discriminate.
Qed.

(** Witness of X8: two sessions are archived, the first one is viewed, the
    second one is deleted; the first one is still selected and archived. *)
Lemma selection_is_an_archive_entry_witness :
  let said := Happens (inbound firstRender (at_ 2 0 0) (heard "Hi")) in
  let actions := [Toggle 1 1; Granted; Opened; said; Toggle 3 3;
                  Toggle 4 4; Granted; Opened; said; Toggle 6 6;
                  ShowPast true; View 0; Delete "transcript-6"] in
  (forall t, selectedPastTranscript initial = Some t ->
             In t (savedTranscripts initial)) /\
  selectedPastTranscript (perform actions initial) = Some (mkSaved "transcript-3" 3 []) /\
  In (mkSaved "transcript-3" 3 []) (savedTranscripts (perform actions initial)).
Proof.
  cbv zeta.
  assert (H : forall t, selectedPastTranscript initial = Some t ->
                        In t (savedTranscripts initial)) by discriminate.
  split; [exact H|]. split; [reflexivity|].
  apply (selection_is_an_archive_entry
           [Toggle 1 1; Granted; Opened;
            Happens (inbound firstRender (at_ 2 0 0) (heard "Hi")); Toggle 3 3;
            Toggle 4 4; Granted; Opened;
            Happens (inbound firstRender (at_ 2 0 0) (heard "Hi")); Toggle 6 6;
            ShowPast true; View 0; Delete "transcript-6"] initial H).
  reflexivity.
Defined.

(** X9.  The archive the component holds and the storage item agree
    throughout every run: if the archive is what the mount effect would load
    from the item (the parsed item, or the empty archive when the item is
    absent), then it still is after any sequence of actions, whether they
    write the item, remove it or leave it alone.  So a component mounted on
    the item a run has left starts with the archive the run ended with (the
    item being read back as the value that was serialized into it). *)
Theorem storage_item_mirrors_the_archive :
  forall (actions : list Action) (item : option (list SavedTranscriptSession))
         (st : State),
    savedTranscripts st = loaded (storedItem item (effects st)) ->
    let st' := perform actions st in
    savedTranscripts st' = loaded (storedItem item (effects st')) /\
    savedTranscripts (mountEffect (storedItem item (effects st')) initial)
    = savedTranscripts st'.
Proof.
  intros actions item st Hst st'. subst st'.
  assert (Hrun : savedTranscripts (perform actions st)
                 = loaded (storedItem item (effects (perform actions st)))).
  { revert st Hst. induction actions as [|a actions IH]; intros st Hst; [exact Hst|].
    cbn. apply IH. unfold storedItem in *.
    destruct (act_archive a st)
      as [(Hs & Hw & _)|[(c & t & t' & _ & Hw & _)|[(id_ & _ & Hw & _)|(Hs & Hw & _)]]];
      rewrite Hw, ?last_last; try reflexivity.
    - now rewrite Hs.
    - exact Hs. }
  split; [exact Hrun|]. rewrite Hrun.
  now destruct (storedItem item (effects (perform actions st))).
Qed.

(** Witness of X9: the component is mounted on an item that holds one
    session; a second session is archived, the first one is deleted, and the
    archive is cleared. *)
Lemma storage_item_mirrors_the_archive_witness :
  let item := Some [mkSaved "transcript-1" 1 []] in
  let st := mountEffect item initial in
  let session := [Toggle 2 2; Granted; Opened;
                  Happens (inbound firstRender (at_ 3 0 0) (heard "Hi")); Toggle 4 4] in
  savedTranscripts st = loaded (storedItem item (effects st)) /\
  storedItem item (effects (perform session st))
  = Some [mkSaved "transcript-1" 1 []; mkSaved "transcript-4" 4 []] /\
  storedItem item (effects (perform (session ++ [Delete "transcript-1"]) st))
  = Some [mkSaved "transcript-4" 4 []] /\
  storedItem item (effects (perform (session ++ [Delete "transcript-1"; ClearAll true]) st))
  = None /\
  savedTranscripts (perform (session ++ [Delete "transcript-1"; ClearAll true]) st)
  = loaded None.
Proof.
  cbv zeta. split; [reflexivity|]. split; [reflexivity|]. split; [reflexivity|].
  split; [reflexivity|].
  exact (proj1 (storage_item_mirrors_the_archive
                  ([Toggle 2 2; Granted; Opened;
                    Happens (inbound firstRender (at_ 3 0 0) (heard "Hi")); Toggle 4 4]
                   ++ [Delete "transcript-1"; ClearAll true])
                  (Some [mkSaved "transcript-1" 1 []])
                  (mountEffect (Some [mkSaved "transcript-1" 1 []]) initial)
                  eq_refl)).
Defined.

(** X10.  The stop routine archives whenever the transcript it sees is not
    empty, also when every message of it is partial: the entry it commits
    then holds no message at all. *)
Theorem transcript_of_partials_is_archived_empty :
  forall (c : Closure) (now_id now_ts : N) (st : State),
    cl_messages c <> [] ->
    (forall msg, In msg (cl_messages c) -> isPartial msg = true) ->
    savedTranscripts (stopInterview c now_id now_ts st)
    = savedTranscripts st ++ [mkSaved ("transcript-" ++ decimal now_id) now_ts []].
Proof.
  intros c now_id now_ts st Hne Hall.
  destruct (stop_archive_summary c now_id now_ts st) as (_ & [(H & _)|(_ & Hs & _)]);
    [contradiction|].
  rewrite Hs. unfold entryOf. f_equal. f_equal. f_equal.
  clear Hs Hne. induction (cl_messages c) as [|m l IH]; [reflexivity|].
  cbn. rewrite (Hall m) by now left. cbn.
  apply IH. intros msg Hin. apply Hall. now right.
Qed.

(** Witness of X10: the session is stopped while the first partial of the
    agent is on screen. *)
Lemma transcript_of_partials_is_archived_empty_witness :
  let st := play [inbound (render active) (at_ 2 0 0) (spoken "Hello")] active in
  cl_messages (render st) <> [] /\
  savedTranscripts (stopInterview (render st) 3 3 st) = [mkSaved "transcript-3" 3 []].
Proof.
  cbv zeta. split; [discriminate|].
  apply (transcript_of_partials_is_archived_empty
           (render (play [inbound (render active) (at_ 2 0 0) (spoken "Hello")] active))
           3 3 (play [inbound (render active) (at_ 2 0 0) (spoken "Hello")] active)).
  - discriminate.
  - intros msg [<-|[]]. reflexivity.
Defined.

Lemma filter_keeps_all {A : Type} (f : A -> bool) (l : list A) :
  (forall x, In x l -> f x = true) -> filter f l = l.
Proof.
  induction l as [|x l IH]; intros Hall; [reflexivity|].
  cbn. rewrite (Hall x) by now left. f_equal. apply IH.
  intros y Hin. apply Hall. now right.
Qed.

Lemma filter_twice {A : Type} (f : A -> bool) (l : list A) :
  filter f (filter f l) = filter f l.
Proof.
  apply filter_keeps_all. intros x Hin. now apply filter_In in Hin.
Qed.

(** X11.  Deleting by id removes every archive entry with that id and no
    other, keeps the remaining entries in their order, writes the remaining
    entries to storage, and clears the selection exactly when the selected
    entry had that id.  Deleting an id that no entry has leaves the archive as
    it is; deleting twice is the same as deleting once. *)
Theorem deleteTranscript_removes_that_id :
  forall (id_ : string) (st : State),
    let st' := deleteTranscript id_ st in
    (forall t, In t (savedTranscripts st')
               <-> In t (savedTranscripts st) /\ saved_id t <> id_) /\
    (exists keep, savedTranscripts st' = filter keep (savedTranscripts st)) /\
    written (effects st') = written (effects st) ++ [savedTranscripts st'] /\
    ((forall t, In t (savedTranscripts st) -> saved_id t <> id_) ->
     savedTranscripts st' = savedTranscripts st) /\
    savedTranscripts (deleteTranscript id_ st') = savedTranscripts st' /\
    (forall t, selectedPastTranscript st = Some t ->
               selectedPastTranscript st'
               = if String.eqb (saved_id t) id_ then None else Some t).
Proof.
  intros id_ st st'. subst st'.
  destruct (delete_summary id_ st) as (He & Hs & _ & _ & _ & Hsel).
  destruct (delete_summary id_ (deleteTranscript id_ st)) as (_ & Hs2 & _).
  assert (Hkeep : forall t, negb (String.eqb (saved_id t) id_) = true
                            <-> saved_id t <> id_).
  { intros t. rewrite negb_true_iff. split.
    - intros H E. apply String.eqb_eq in E. congruence.
    - intros H. destruct (String.eqb (saved_id t) id_) eqn:E; [|reflexivity].
      apply String.eqb_eq in E. contradiction. }
  split; [|split; [|split; [|split; [|split]]]].
  - intros t. rewrite Hs, filter_In, Hkeep. reflexivity.
  - eexists. exact Hs.
  - rewrite He, Hs, written_app. reflexivity.
  - intros Hall. rewrite Hs. apply filter_keeps_all.
    intros t Hin. apply Hkeep. now apply Hall.
  - rewrite Hs2, Hs. apply filter_twice.
  - intros t Ht. now rewrite Hsel, Ht.
Qed.

(** ** Scheduling without an output context *)

Lemma deliver_without_context (i : Inbound) (st : State) :
  outputAudioContextRef st = None ->
  outputAudioContextRef (deliver i st) = None /\
  started (effects (deliver i st)) = started (effects st) /\
  (forall s, In s (outputAudioSourcesRef (deliver i st)) ->
             In s (outputAudioSourcesRef st)).
Proof.
  intros Hctx.
  pose proof (deliver_beyond i st) as Hb. unfold beyondConversation in Hb.
  injection Hb as _ _ _ _ _ _ _ _ Hc _ _. rewrite Hc. split; [exact Hctx|].
  destruct (serverContent (in_message i)) as [sc|] eqn:Hsc.
  2:{ rewrite deliver_without_content by assumption. auto. }
  destruct (deliver_summary i sc st Hsc) as (He & Hl & _). cbv zeta in He, Hl.
  assert (Henq : enqueues (in_reading i) sc st = None).
  { unfold enqueues, entersAudio. now rewrite Hctx. }
  rewrite He, Hl, Henq, !started_app, app_nil_r.
  destruct (flushes (in_reading i) sc st); cbn [started flat_map app].
  - split; [|intros s []].
    fold (started (map SourceStop (outputAudioSourcesRef st))).
    assert (Hnone : forall l, started (map SourceStop l) = []).
    { induction l as [|x l IH]; [reflexivity|]. exact IH. }
    now rewrite Hnone, app_nil_r.
  - now rewrite app_nil_r.
Qed.

(** X12.  While the component holds no output audio context, as after every
    stop and before the next start, no inbound event starts a playback
    source: audio chunks of late messages are dropped, and the live set does
    not grow. *)
Theorem nothing_is_scheduled_without_a_context :
  forall (events : list Event) (st : State),
    outputAudioContextRef st = None ->
    let st' := play events st in
    started (effects st') = started (effects st) /\
    (forall s, In s (outputAudioSourcesRef st') -> In s (outputAudioSourcesRef st)) /\
    forall c now_id now_ts st0,
      started (effects (play events (stopInterview c now_id now_ts st0)))
      = started (effects st0).
Proof.
  assert (Hrun : forall events st,
            outputAudioContextRef st = None ->
            started (effects (play events st)) = started (effects st) /\
            (forall s, In s (outputAudioSourcesRef (play events st)) ->
                       In s (outputAudioSourcesRef st))).
  { induction events as [|e events IH]; intros st Hctx; [auto|].
    change (play (e :: events) st) with (play events (step e st)).
    assert (Hstep : outputAudioContextRef (step e st) = None /\
                    started (effects (step e st)) = started (effects st) /\
                    (forall s, In s (outputAudioSourcesRef (step e st)) ->
                               In s (outputAudioSourcesRef st))).
    { destruct e as [i|c source|inputData]; cbn [step].
      - now apply deliver_without_context.
      - destruct (ended_schedule c source st) as (-> & -> & _).
        destruct (ended_summary c source st) as (-> & _).
        repeat split; auto. intros s Hin. now apply filter_In in Hin.
      - destruct (captured_schedule inputData st) as (-> & -> & _).
        pose proof (proj2 (proj2 (proj2 (proj2 (proj2 (proj2 (proj2
                      (quiet_handlers 0 0 false inputData st)))))))) as Hq.
        unfold traceView in Hq. injection Hq as _ -> _ _ _. auto. }
    destruct Hstep as (Hc & Hs & Hl). destruct (IH _ Hc) as (Hs' & Hl').
    rewrite Hs', Hs. auto. }
  intros events st Hctx st'. subst st'.
  destruct (Hrun events st Hctx) as (Hs & Hl).
  split; [exact Hs|]. split; [exact Hl|].
  intros c now_id now_ts st0.
  destruct (stop_leaves_idle c now_id now_ts st0) as (_ & _ & _ & _ & _ & _ & _ & Ho & _).
  destruct (Hrun events _ Ho) as (Hs0 & _). rewrite Hs0.
  destruct (stop_summary c now_id now_ts st0) as (He & _).
  rewrite He, started_app.
  assert (Hnone : started (released c now_id now_ts st0) = []).
  { unfold released, heldStream. rewrite !started_app.
    assert (Hmap : forall l, started (map SourceStop l) = []).
    { induction l as [|x l IH]; [reflexivity|]. exact IH. }
    rewrite Hmap.
    destruct (0 <? List.length (cl_messages c))%nat; destruct (streamRef st0);
      destruct (scriptProcessorRef st0); destruct (inputAudioContextRef st0);
      destruct (outputAudioContextRef st0); reflexivity. }
  now rewrite Hnone, app_nil_r.
Qed.

(** Witness of X12: a chunk arrives after the session was stopped. *)
Lemma nothing_is_scheduled_without_a_context_witness :
  let st := stopInterview (render active) 1 1 active in
  outputAudioContextRef st = None /\
  started (effects (play [inbound firstRender (at_ 2 0 1) (chunk "AAAA")] st)) = [].
Proof.
  cbv zeta. split; [reflexivity|].
  rewrite (proj1 (nothing_is_scheduled_without_a_context
                    [inbound firstRender (at_ 2 0 1) (chunk "AAAA")]
                    (stopInterview (render active) 1 1 active) eq_refl)).
  reflexivity.
Defined.

(** Witness of X11: of two archived sessions the second one is deleted while
    it is selected. *)
Lemma deleteTranscript_removes_that_id_witness :
  let archive := [mkSaved "transcript-3" 3 []; mkSaved "transcript-6" 6 []] in
  let st := viewTranscript 1 (mountEffect (Some archive) initial) in
  selectedPastTranscript st = Some (mkSaved "transcript-6" 6 []) /\
  savedTranscripts (deleteTranscript "transcript-6" st) = [mkSaved "transcript-3" 3 []] /\
  selectedPastTranscript (deleteTranscript "transcript-6" st) = None.
Proof.
  cbv zeta. split; [reflexivity|]. split; [reflexivity|].
  destruct (deleteTranscript_removes_that_id "transcript-6"
              (viewTranscript 1
                 (mountEffect (Some [mkSaved "transcript-3" 3 [];
                                     mkSaved "transcript-6" 6 []]) initial)))
    as (_ & _ & _ & _ & _ & Hsel).
  now rewrite (Hsel (mkSaved "transcript-6" 6 []) eq_refl).
Defined.

(** ** An interrupted utterance *)



(** ** Frames and the life of the session promise *)

Lemma onaudioprocess_fulfilled (inputData : list Z) (st : State) (p : nat)
                               (waitingFor : list Reaction) (made : list SessionCall) :
  liveSessionRef st = Some p ->
  nth_error (promises st) p = Some (mkPromise Fulfilled waitingFor made) ->
  liveSessionRef (onaudioprocess inputData st) = Some p /\
  nth_error (promises (onaudioprocess inputData st)) p
  = Some (mkPromise Fulfilled waitingFor
                    (made ++ [sendRealtimeInput (createBlob inputData)])).
Proof.
  intros Hlive Hcell. unfold onaudioprocess. rewrite Hlive.
  destruct (onPromise_fields (then_ (ThenSend (createBlob inputData))) p st)
    as (Hl & Hp & _).
  rewrite Hl, Hp, nth_error_updateAt, Hcell. auto.
Qed.

Lemma capture_fulfilled (frames : list (list Z)) :
  forall (st : State) (p : nat) (waitingFor : list Reaction) (made : list SessionCall),
    liveSessionRef st = Some p ->
    nth_error (promises st) p = Some (mkPromise Fulfilled waitingFor made) ->
    liveSessionRef (capture frames st) = Some p /\
    nth_error (promises (capture frames st)) p
    = Some (mkPromise Fulfilled waitingFor
              (made ++ map (fun f => sendRealtimeInput (createBlob f)) frames)).
Proof.
  induction frames as [|f frames IH]; intros st p waitingFor made Hlive Hcell.
  - cbn. now rewrite app_nil_r.
  - destruct (onaudioprocess_fulfilled f st p waitingFor made Hlive Hcell) as (Hl & Hc).
    destruct (IH _ _ _ _ Hl Hc) as (Hl' & Hc').
    change (capture (f :: frames) st) with (capture frames (onaudioprocess f st)).
    rewrite Hl', Hc'. cbn [map]. now rewrite <- app_assoc.
Qed.

(** X14.  Frames reach the session in the order they were captured, whether
    they were captured before or after the session promise was fulfilled:
    the frames that waited are sent on fulfilment, each later frame is sent
    when it is captured, and no frame is sent twice or lost. *)
Theorem frames_are_sent_in_capture_order :
  forall (before after : list (list Z)) (st : State) (p : nat)
         (waitingFor : list Reaction) (made : list SessionCall),
    liveSessionRef st = Some p ->
    nth_error (promises st) p = Some (mkPromise Pending waitingFor made) ->
    let st' := capture after (connectFulfilled p (capture before st)) in
    sessionCalls p st'
    = made ++ map react waitingFor
           ++ map (fun f => sendRealtimeInput (createBlob f)) (before ++ after) /\
    waiting p st' = [].
Proof.
  intros before after st p waitingFor made Hlive Hcell st'. subst st'.
  destruct (capture_pending before st p waitingFor made Hlive Hcell) as (Hl1 & Hc1).
  destruct (settle_keeps_ref fulfil p (capture before st)) as (Hl2 & Hc2).
  rewrite Hl1 in Hl2. rewrite Hc1 in Hc2. cbn in Hc2.
  destruct (capture_fulfilled after _ p _ _ Hl2 Hc2) as (_ & Hc3).
  unfold sessionCalls, waiting, connectFulfilled. rewrite Hc3. cbn.
  split; [|reflexivity].
  now rewrite !map_app, map_map, <- !app_assoc.
Qed.

(** Witness of X14: two frames before the stream opens, one after. *)
Lemma frames_are_sent_in_capture_order_witness :
  liveSessionRef connecting = Some 0%nat /\
  nth_error (promises connecting) 0 = Some (mkPromise Pending [] []) /\
  sessionCalls 0 (capture [[3%Z]] (connectFulfilled 0 (capture [[1%Z]; [2%Z]] connecting)))
  = [sendRealtimeInput (createBlob [1%Z]); sendRealtimeInput (createBlob [2%Z]);
     sendRealtimeInput (createBlob [3%Z])].
Proof.
  split; [reflexivity|]. split; [reflexivity|].
  exact (proj1 (frames_are_sent_in_capture_order [[1%Z]; [2%Z]] [[3%Z]] connecting
                  0%nat [] [] eq_refl eq_refl)).
Defined.

(** X15.  Once the session is stopped its frames are over: the stop routine
    registers the close behind the frames that still wait, forgets the
    session, and every frame captured afterwards is dropped.  So [close] is
    the last call the session ever gets: after the waiting frames when the
    promise is fulfilled later, at once when it was fulfilled already; a
    rejected promise gets no call. *)
Theorem close_is_the_last_call :
  forall (c : Closure) (now_id now_ts : N) (late : list (list Z)) (st : State)
         (p : nat) (cell : Promise),
    liveSessionRef st = Some p ->
    nth_error (promises st) p = Some cell ->
    let st' := capture late (stopInterview c now_id now_ts st) in
    st' = stopInterview c now_id now_ts st /\
    (settlement cell = Pending ->
     sessionCalls p st' = calls cell /\
     sessionCalls p (connectFulfilled p st')
     = calls cell ++ map react (reactions cell) ++ [close]) /\
    (settlement cell = Fulfilled -> sessionCalls p st' = calls cell ++ [close]) /\
    (settlement cell = Rejected -> sessionCalls p st' = calls cell).
Proof.
  intros c now_id now_ts late st p cell Hlive Hcell st'. subst st'.
  destruct (stop_leaves_idle c now_id now_ts st)
    as (_ & _ & _ & _ & _ & _ & _ & _ & Hnone & _).
  rewrite (capture_without_session late _ Hnone). split; [reflexivity|].
  destruct (stop_summary c now_id now_ts st) as (_ & Hp & _).
  rewrite Hlive in Hp.
  assert (Hafter : nth_error (promises (stopInterview c now_id now_ts st)) p
                   = Some (then_ ThenClose cell)).
  { now rewrite Hp, nth_error_updateAt, Hcell. }
  destruct (settle_keeps_ref fulfil p (stopInterview c now_id now_ts st)) as (_ & Hf).
  rewrite Hafter in Hf. cbn in Hf.
  unfold sessionCalls, connectFulfilled. rewrite Hafter, Hf.
  destruct cell as [state waitingFor made]. cbn.
  split; [|split]; intros ->; cbn; rewrite ?map_app; auto.
Qed.

(** Witness of X15: the mic is pressed again while two frames wait for the
    session; the frames are sent and the session is closed when it opens. *)
Lemma close_is_the_last_call_witness :
  let st := capture [[1%Z]; [2%Z]] connecting in
  liveSessionRef st = Some 0%nat /\
  sessionCalls 0 (connectFulfilled 0
                    (capture [[3%Z]] (stopInterview (render st) 1 1 st)))
  = [sendRealtimeInput (createBlob [1%Z]); sendRealtimeInput (createBlob [2%Z]); close].
Proof.
  cbv zeta. split; [reflexivity|].
  destruct (close_is_the_last_call (render (capture [[1%Z]; [2%Z]] connecting)) 1 1
              [[3%Z]] (capture [[1%Z]; [2%Z]] connecting) 0%nat
              (mkPromise Pending [ThenSend (createBlob [1%Z]);
                                  ThenSend (createBlob [2%Z])] [])
              eq_refl eq_refl) as (_ & H & _).
  destruct (H eq_refl) as (_ & Hcalls). exact Hcalls.
Defined.

(** X16.  When the promise of the session is rejected, no frame is ever
    sent: the frames that waited are discarded with the rejection, the frames
    captured afterwards are registered on the rejected promise to no effect,
    and the close that a later stop registers is not called either. *)
Theorem rejected_connection_gets_no_call :
  forall (c : Closure) (now_id now_ts : N) (before after : list (list Z))
         (st : State) (p : nat) (waitingFor : list Reaction) (made : list SessionCall),
    liveSessionRef st = Some p ->
    nth_error (promises st) p = Some (mkPromise Pending waitingFor made) ->
    let st' := capture after (connectRejected p (capture before st)) in
    sessionCalls p st' = made /\ waiting p st' = [] /\
    sessionCalls p (stopInterview c now_id now_ts st') = made.
Proof.
  intros c now_id now_ts before after st p waitingFor made Hlive Hcell st'. subst st'.
  destruct (capture_pending before st p waitingFor made Hlive Hcell) as (Hl1 & Hc1).
  destruct (settle_keeps_ref reject p (capture before st)) as (Hl2 & Hc2).
  rewrite Hl1 in Hl2. rewrite Hc1 in Hc2. cbn in Hc2.
  destruct (capture_rejected after _ p _ _ Hl2 Hc2) as (Hl3 & Hc3).
  fold (connectRejected p (capture before st)) in Hl3, Hc3.
  set (st3 := capture after (connectRejected p (capture before st))) in *.
  destruct (stop_summary c now_id now_ts st3) as (_ & Hp & _). rewrite Hl3 in Hp.
  unfold sessionCalls, waiting. rewrite Hp, nth_error_updateAt, Hc3. cbn.
  repeat split.
Qed.

(** Witness of X16: the connection is refused while two frames wait. *)
Lemma rejected_connection_gets_no_call_witness :
  liveSessionRef connecting = Some 0%nat /\
  nth_error (promises connecting) 0 = Some (mkPromise Pending [] []) /\
  sessionCalls 0 (stopInterview firstRender 1 1
                    (capture [[3%Z]]
                       (connectRejected 0 (capture [[1%Z]; [2%Z]] connecting)))) = [].
Proof.
  split; [reflexivity|]. split; [reflexivity|].
  destruct (rejected_connection_gets_no_call firstRender 1 1 [[1%Z]; [2%Z]] [[3%Z]]
              connecting 0%nat [] [] eq_refl eq_refl) as (_ & _ & H).
  exact H.
Defined.

(** ** Starting again *)







(** ** Stops that see the first render *)

Lemma stop_status (c : Closure) (now_id now_ts : N) (st : State) :
  statusMessage (stopInterview c now_id now_ts st)
  = if (0 <? List.length (cl_messages c))%nat
    then "Interview ended and transcript saved!" else "Interview ended.".
Proof.
  destruct st as [? ? ? ? ? ? ? live stream inputCtx outputCtx node ? ? ? ? ? ? ? ? ?].
  cbv beta delta [stopInterview saveCurrentTranscript archiveUpdater].
  destruct (cl_messages c); destruct live, stream, inputCtx, outputCtx, node;
    reflexivity.
Qed.

(** X19.  [handleError] and the cleanup of the mount effect are created by
    the first render and call the stop routine of that render, which sees an
    empty transcript.  Whatever the transcript holds when they run, they
    discard it without archiving it: no entry is added, nothing is written to
    storage, the transcript is emptied and the status reads
    [Interview ended.]; the session itself is released as by any stop. *)
Theorem error_discards_the_transcript :
  forall (e_message : string) (now_id now_ts : N) (st : State),
    let st' := handleError firstRender e_message now_id now_ts st in
    st' = unmountEffect now_id now_ts st /\
    savedTranscripts st' = savedTranscripts st /\
    written (effects st') = written (effects st) /\
    messages st' = [] /\
    statusMessage st' = "Interview ended." /\
    Idle st'.
Proof.
  intros e_message now_id now_ts st st'. subst st'.
  rewrite handleError_is_stop. unfold unmountEffect.
  pose proof (stop_leaves_idle firstRender now_id now_ts st) as Hidle.
  destruct (stop_archive_summary firstRender now_id now_ts st)
    as (_ & [(_ & Hs & Hw & _)|(Hne & _)]); [|now contradiction Hne].
  split; [reflexivity|]. split; [exact Hs|]. split; [exact Hw|].
  split; [now destruct Hidle as (_ & _ & Hm & _)|].
  split; [now rewrite stop_status|exact Hidle].
Qed.

(** ** Texts in the transcript *)

Lemma addMessage_update_In (m x : ChatMessage) (l : list ChatMessage) :
  In x (addMessage_update m l) -> x = m \/ In x l.
Proof.
  assert (Hassign : forall l' i, In x (assign l' i m) -> x = m \/ In x l').
  { induction l' as [|y l' IH]; intros [|i] Hin; cbn in Hin; auto.
    - destruct Hin as [<-|Hin]; cbn; auto.
    - destruct Hin as [<-|Hin]; cbn; auto.
      destruct (IH i Hin); cbn; auto. }
  assert (Hpush : In x (l ++ [m]) -> x = m \/ In x l).
  { intros Hin. apply in_app_or in Hin as [Hin|[<-|[]]]; auto. }
  unfold addMessage_update.
  destruct (isPartial m && truthy (id m)); [|exact Hpush].
  destruct (findIndex (sameMessage m) l); [apply Hassign|exact Hpush].
Qed.

Lemma addMessage_noEmptyText (m : ChatMessage) (l : list ChatMessage) :
  truthy (text m) = true -> noEmptyText l -> noEmptyText (addMessage_update m l).
Proof.
  intros Hm Hl x Hin. apply addMessage_update_In in Hin as [->|Hin]; auto.
Qed.

Lemma blocks_noEmptyText (c : Closure) (r : Reading) (sc : ServerContent) (st : State) :
  noEmptyText (messages st) ->
  noEmptyText (messages (handleInputTranscription r sc st)) /\
  noEmptyText (messages (handleOutputTranscription r sc st)) /\
  noEmptyText (messages (stateOf (handleAudio r sc st))) /\
  noEmptyText (messages (handleTurnComplete c sc st)) /\
  noEmptyText (messages (handleInterrupted sc st)).
Proof.
  intros H. repeat split; revert H; run_blocks st; intros H;
    repeat (apply addMessage_noEmptyText; [assumption|]); try exact H.
  intros x Hin. apply filter_In in Hin as [Hin _]. now apply H.
Qed.

Lemma deliver_noEmptyText (i : Inbound) (st : State) :
  noEmptyText (messages st) -> noEmptyText (messages (deliver i st)).
Proof.
  intros H. destruct (serverContent (in_message i)) as [sc|] eqn:Hsc.
  2:{ unfold deliver, handleMessage. now rewrite Hsc. }
  rewrite (deliver_runs i sc st Hsc). cbv zeta.
  set (c := in_closure i). set (r := in_reading i).
  assert (H3 : noEmptyText
                 (messages (stateOf (handleAudio r sc
                    (handleOutputTranscription r sc (handleInputTranscription r sc st)))))).
  { apply (blocks_noEmptyText c r sc). apply (blocks_noEmptyText c r sc).
    now apply (blocks_noEmptyText c r sc). }
  destruct (audioThrows r sc
              (handleOutputTranscription r sc (handleInputTranscription r sc st)));
    [exact H3|].
  apply (blocks_noEmptyText c r sc). now apply (blocks_noEmptyText c r sc).
Qed.

Lemma act_messages (a : Action) (st : State) :
  messages (act a st) = messages st \/ messages (act a st) = [] \/
  exists i, a = Happens (Message i).
Proof.
  assert (Hstop : forall c t t', messages (stopInterview c t t' st) = []).
  { intros c t t'. now destruct (stop_leaves_idle c t t' st) as (_ & _ & Hm & _). }
  destruct a as [t t'| |c m t t'| |p|p|e|c t t'|c m t t'|c t t'|show|k| |id_|confirmed];
    cbn [act].
  - unfold toggleInterview. destruct (isRecording st || isLoading st); [auto|].
    right. left. destruct st; reflexivity.
  - left. destruct st; reflexivity.
  - rewrite failed_is_stop. auto.
  - left. destruct st; reflexivity.
  - left. apply (onPromise_fields fulfil p st).
  - left. apply (onPromise_fields reject p st).
  - destruct e as [i|c source|inputData]; cbn [step].
    + right. right. now exists i.
    + left. apply ended_beyond.
    + left. unfold onaudioprocess. destruct (liveSessionRef st); [|reflexivity].
      apply onPromise_fields.
  - auto.
  - rewrite handleError_is_stop. auto.
  - rewrite handleClose_is_stop. destruct (cl_isRecording c); auto.
  - left. destruct st; reflexivity.
  - left. unfold viewTranscript.
    destruct (nth_error (savedTranscripts st) k); destruct st; reflexivity.
  - left. destruct st; reflexivity.
  - left. unfold deleteTranscript. destruct st; cbn.
    destruct selectedPastTranscript0 as [t|]; [|reflexivity].
    destruct (String.eqb (saved_id t) id_); reflexivity.
  - left. destruct st, confirmed; reflexivity.
Qed.

(** X20.  No run of the component puts a message with an empty text into the
    transcript: partials are shown and finalized messages are appended only
    for texts that are not empty, and every other action keeps or empties the
    transcript. *)
Theorem transcript_has_no_empty_message :
  forall (actions : list Action) (st : State),
    noEmptyText (messages st) ->
    noEmptyText (messages (perform actions st)).
Proof.
  induction actions as [|a actions IH]; intros st H; [exact H|].
  cbn. apply IH.
  destruct (act_messages a st) as [->|[->|(i & ->)]].
  - exact H.
  - intros msg [].
  - cbn. now apply deliver_noEmptyText.
Qed.

(** Witness of X20: a message with an empty transcription and a
    turn-complete flag leaves the transcript of the first render empty. *)
Lemma transcript_has_no_empty_message_witness :
  let actions := [Toggle 1 1; Granted; Opened;
                  Happens (inbound firstRender (at_ 2 0 0) (heard ""));
                  Happens (inbound firstRender (at_ 3 0 0) turnDone)] in
  noEmptyText (messages initial) /\
  messages (perform actions initial) = [] /\
  noEmptyText (messages (perform actions initial)).
Proof.
  cbv zeta.
  assert (H : noEmptyText (messages initial)) by (intros msg []).
  split; [exact H|]. split; [reflexivity|].
  exact (transcript_has_no_empty_message
           [Toggle 1 1; Granted; Opened;
            Happens (inbound firstRender (at_ 2 0 0) (heard ""));
            Happens (inbound firstRender (at_ 3 0 0) turnDone)] initial H).
Defined.
